(** * c4/format.hpp: formatting arguments to string buffers

    A shallow embedding of the variadic serialisation engines of
    [c4/format.hpp] ([cat], [catsep], [format] and their inverses
    [uncat], [uncatsep], [unformat]), of the resizing adapters ([catrs],
    [catseprs], [formatrs]) and of the value wrappers of namespace [fmt],
    together with the properties the library documentation states about
    them. *)

From Stdlib Require Import ZArith List Ascii String Bool Lia.
From Stdlib Require Import DecimalString DecimalPos DecimalN.
Import ListNotations.
Open Scope Z_scope.

(** ** [size_t] *)

(** [size_t] is an unsigned 64-bit integer: a [Z] in [0, 2^64), with the
    arithmetic of the source wrapping around. *)
Definition size_bits : Z := 64.
Definition size_max : Z := 2 ^ size_bits - 1.
Definition wrap (z : Z) : Z := z mod 2 ^ size_bits.

(** [csubstr::npos], the not-found value: [size_t(-1)]. *)
Definition npos : Z := size_max.

(** ** Memory and buffer views *)

(** Character storage: one character per address. *)
Definition mem : Type := Z -> ascii.

Definition store (m : mem) (p : Z) (c : ascii) : mem :=
  fun q => if q =? p then c else m q.

Fixpoint memcpy (m : mem) (dst : Z) (src : list ascii) : mem :=
  match src with
  | [] => m
  | c :: cs => memcpy (store m dst c) (dst + 1) cs
  end.

Fixpoint load (m : mem) (p : Z) (n : nat) : list ascii :=
  match n with
  | O => []
  | S k => m p :: load m (p + 1) k
  end.

(** [substr]: a writeable, non-owning (pointer, length) view. *)
Record substr : Type := mk_substr { str : Z; len : Z }.

(** [substr{}]: the null view. *)
Definition substr_nil : substr := mk_substr 0 0.

(** [csubstr]: a read-only view.  The characters under a read-only view
    do not change during a call (the library asserts that source and
    destination do not overlap), so the view is modelled by the characters
    it ranges over. *)
Definition csubstr : Type := list ascii.

Definition clen (s : csubstr) : Z := Z.of_nat (List.length s).

Definition cs (s : string) : csubstr := list_ascii_of_string s.

(** A state monad over the character storage, for the writing side. *)
Definition M (A : Type) : Type := mem -> A * mem.

Definition ret {A} (a : A) : M A := fun m => (a, m).

Definition bind {A B} (c : M A) (k : A -> M B) : M B :=
  fun m => let '(a, m1) := c m in k a m1.

Notation "x <- c ;; k" := (bind c (fun x => k))
  (at level 61, c at next level, right associativity).

(** Modelled from the spec: [basic_substring::sub(first)] of c4/substr.hpp
    (not in this file): the view from offset [first] to the end. *)
Definition sub (b : substr) (first : Z) : substr :=
  mk_substr (str b + first) (len b - first).

(** The step every engine repeats after a write of [num] characters:
    [buf = buf.len >= num ? buf.sub(num) : substr{}]. *)
Definition advance (buf : substr) (num : Z) : substr :=
  if len buf >=? num then sub buf num else substr_nil.

(** Modelled from the spec: [sub(first)] of c4/substr.hpp on a read-only
    view: the characters from offset [first] on. *)
Definition csub (s : csubstr) (first : Z) : csubstr :=
  skipn (Z.to_nat first) s.

(** Modelled from the spec: [sub(first, num)] of c4/substr.hpp on a
    read-only view: [num] characters from offset [first] on. *)
Definition csub_n (s : csubstr) (first num : Z) : csubstr :=
  firstn (Z.to_nat num) (skipn (Z.to_nat first) s).

(** Modelled from the spec: the comparison at one offset that
    [find(pattern)] of c4/substr.hpp makes: [pat] is at the start of [s]. *)
Fixpoint starts_with (pat s : list ascii) : bool :=
  match pat, s with
  | [], _ => true
  | _ :: _, [] => false
  | p :: pat', c :: s' => Ascii.eqb p c && starts_with pat' s'
  end.

(** Modelled from the spec: the loop of [find(pattern)] of c4/substr.hpp,
    from offset [i] on: the first offset at which [pat] is found, or
    [npos]. *)
Fixpoint find_from (pat s : list ascii) (i : Z) : Z :=
  match s with
  | [] => npos
  | _ :: s' => if starts_with pat s then i else find_from pat s' (i + 1)
  end.

(** Modelled from the spec: [find(pattern)] of c4/substr.hpp. *)
Definition find (s : csubstr) (pat : list ascii) : Z := find_from pat s 0.

(** The same step on the reading side:
    [buf = buf.len >= out ? buf.sub(out) : substr{}]. *)
Definition cadvance (buf : csubstr) (out : Z) : csubstr :=
  if clen buf >=? out then csub buf out else [].

(** ** The customization points *)

(** [size_t to_chars(substr buf, T const& v)]: writes into [buf], returns
    the number of characters the value needs. *)
Class ToChars (T : Type) : Type :=
  to_chars : substr -> T -> M Z.

(** [size_t from_chars_first(csubstr buf, T *v)]: reads a value from the
    start of [buf] into [*v]; returns the number of characters read, or
    [npos].  The variable's previous value is an input, its value after the
    call an output. *)
Class FromChars (T : Type) : Type :=
  from_chars_first : csubstr -> T -> Z * T.

(** One element of a [const&] argument pack: a value with the [to_chars]
    overload that its type selects. *)
Record arg : Type := mk_arg {
  arg_type : Type;
  arg_to_chars : ToChars arg_type;
  arg_val : arg_type
}.
Arguments mk_arg {arg_type arg_to_chars} arg_val.

Definition write (buf : substr) (a : arg) : M Z :=
  @to_chars _ (arg_to_chars a) buf (arg_val a).

(** One element of a [&] argument pack: a variable with the
    [from_chars_first] overload that its type selects. *)
Record ref : Type := mk_ref {
  ref_type : Type;
  ref_from_chars : FromChars ref_type;
  ref_val : ref_type
}.
Arguments mk_ref {ref_type ref_from_chars} ref_val.

Definition set_ref (r : ref) (x : ref_type r) : ref :=
  @mk_ref (ref_type r) (ref_from_chars r) x.

Definition read (buf : csubstr) (r : ref) : Z * ref :=
  let '(n, x) := @from_chars_first _ (ref_from_chars r) buf (ref_val r) in
  (n, set_ref r x).

(** ** cat *)

Fixpoint cat (buf : substr) (args : list arg) : M Z :=
  match args with
  | [] => ret 0
  | a :: more =>
      num <- write buf a ;;
      let buf := advance buf num in
      r <- cat buf more ;;
      ret (wrap (num + r))
  end.

(** Modelled from the spec: the macros [C4_CHECK] and [C4_ASSERT_MSG] of
    c4/error.hpp (not in this file).  A check whose condition holds lets the
    function go on.  A check whose condition fails reports the library's
    error; [resume] is what the function goes on to return should the error
    handler come back instead of stopping the program. *)
Inductive checked (A : Type) : Type :=
| Passed (a : A)
| Failed (msg : string) (resume : A).
Arguments Passed {A} a.
Arguments Failed {A} msg resume.

(** Modelled from the spec: [C4_CHECK(cond)] of c4/error.hpp, followed by
    the rest [a] of the function. *)
Definition C4_CHECK {A} (cond : bool) (msg : string) (a : A) : checked A :=
  if cond then Passed a else Failed msg a.

(** Modelled from the spec: [C4_ASSERT_MSG(cond, msg)] of c4/error.hpp, with
    assertions enabled, followed by the rest [a] of the function. *)
Definition C4_ASSERT_MSG {A} (cond : bool) (msg : string) (a : A) : checked A :=
  if cond then Passed a else Failed msg a.

Definition passed {A} (c : checked A) : bool :=
  match c with Passed _ => true | Failed _ _ => false end.

(** [cat_sub]: like [cat], but returns the written part of the buffer,
    checking. *)
Definition cat_sub (buf : substr) (args : list arg) : M (checked substr) :=
  sz <- cat buf args ;;
  ret (C4_CHECK (sz <=? len buf) "sz <= buf.len"
         (mk_substr (str buf) (if sz <=? len buf then sz else len buf))).

(** ** uncat *)

Fixpoint uncat (buf : csubstr) (args : list ref) : Z * list ref :=
  match args with
  | [] => (0, [])
  | a :: more =>
      let '(out, a) := read buf a in
      if out =? npos then (npos, a :: more) else
      let buf := cadvance buf out in
      let '(num, more) := uncat buf more in
      if num =? npos then (npos, a :: more) else
      (wrap (out + num), a :: more)
  end.

(** ** catsep *)

Module detail.

Fixpoint catsep_more (buf : substr) (sep : arg) (args : list arg) : M Z :=
  match args with
  | [] => ret 0
  | a :: more =>
      r <- write buf sep ;;
      let num := r in
      let buf := advance buf r in
      r <- write buf a ;;
      let num := wrap (num + r) in
      let buf := advance buf r in
      r <- catsep_more buf sep more ;;
      let num := wrap (num + r) in
      ret num
  end.

(** The separator is read through a reference too: each occurrence is
    parsed into the same variable [sep]. *)
Fixpoint uncatsep_more (buf : csubstr) (sep : ref) (args : list ref)
  : Z * (ref * list ref) :=
  match args with
  | [] => (0, (sep, []))
  | a :: more =>
      let '(r, sep) := read buf sep in
      let num := r in
      if r =? npos then (npos, (sep, a :: more)) else
      let buf := cadvance buf r in
      let '(r, a) := read buf a in
      if r =? npos then (npos, (sep, a :: more)) else
      let num := wrap (num + r) in
      let buf := cadvance buf r in
      let '(r, (sep, more)) := uncatsep_more buf sep more in
      if r =? npos then (npos, (sep, a :: more)) else
      let num := wrap (num + r) in
      (num, (sep, a :: more))
  end.

End detail.

(** [catsep] takes at least one argument after the separator. *)
Definition catsep (buf : substr) (sep : arg) (a : arg) (more : list arg) : M Z :=
  num <- write buf a ;;
  let buf := advance buf num in
  r <- detail.catsep_more buf sep more ;;
  ret (wrap (num + r)).

Definition catsep_sub (buf : substr) (sep : arg) (a : arg) (more : list arg)
  : M (checked substr) :=
  sz <- catsep buf sep a more ;;
  ret (C4_CHECK (sz <=? len buf) "sz <= buf.len"
         (mk_substr (str buf) (if sz <=? len buf then sz else len buf))).

Definition uncatsep (buf : csubstr) (sep : ref) (a : ref) (more : list ref)
  : Z * (ref * (ref * list ref)) :=
  let '(r, a) := read buf a in
  let num := r in
  if r =? npos then (npos, (sep, (a, more))) else
  let buf := cadvance buf r in
  let '(r, (sep, more)) := detail.uncatsep_more buf sep more in
  if r =? npos then (npos, (sep, (a, more))) else
  let num := wrap (num + r) in
  (num, (sep, (a, more))).

(** ** format *)

(** The placeholder: a compact curly-bracket pair. *)
Definition placeholder : list ascii := cs "{}".

(** Modelled from the spec: [to_chars(substr, csubstr)] of c4/charconv.hpp
    (not in this file): copies as many characters as fit, and returns the
    number of characters of the value. *)
#[global] Instance to_chars_csubstr : ToChars csubstr :=
  fun buf v m =>
    let n := if len buf <? clen v then len buf else clen v in
    (clen v, memcpy m (str buf) (firstn (Z.to_nat n) v)).

Fixpoint format (buf : substr) (fmt : csubstr) (args : list arg) : M Z :=
  match args with
  | [] => to_chars buf fmt
  | a :: more =>
      let pos := find fmt placeholder in
      if pos =? npos then to_chars buf fmt else
      num <- to_chars buf (csub_n fmt 0 pos) ;;
      let out := num in
      let buf := advance buf num in
      num <- write buf a ;;
      let out := wrap (out + num) in
      let buf := advance buf num in
      num <- format buf (csub fmt (wrap (pos + 2))) more ;;
      let out := wrap (out + num) in
      ret out
  end.

Definition format_sub (buf : substr) (fmt : csubstr) (args : list arg)
  : M (checked substr) :=
  sz <- format buf fmt args ;;
  ret (C4_CHECK (sz <=? len buf) "sz <= buf.len"
         (mk_substr (str buf) (if sz <=? len buf then sz else len buf))).

Fixpoint unformat (buf : csubstr) (fmt : csubstr) (args : list ref)
  : Z * list ref :=
  match args with
  | [] => (0, [])
  | a :: more =>
      let pos := find fmt placeholder in
      if pos =? npos then (0, a :: more) else
      let num := pos in
      let out := num in
      let buf := cadvance buf num in
      let '(num, a) := read buf a in
      if num =? npos then (npos, a :: more) else
      let out := wrap (out + num) in
      let buf := cadvance buf num in
      let '(num, more) := unformat buf (csub fmt (wrap (pos + 2))) more in
      if num =? npos then (npos, a :: more) else
      let out := wrap (out + num) in
      (out, a :: more)
  end.

(** ** Resizeable containers *)

(** Modelled from the spec: the character-owning container (its type,
    [to_substr] and [resize] are not in this file): the characters it holds,
    stored from address 0 on; [resize] keeps the leading characters and
    fills what it adds with the null character. *)
Definition container : Type := list ascii.

(** Modelled from the spec: [to_substr(container)]: the view of all the
    characters of the container. *)
Definition to_substr (cont : container) : substr := mk_substr 0 (clen cont).

(** Modelled from the spec: the storage behind [to_substr(container)]. *)
Definition storage (cont : container) : mem :=
  fun p => if p <? 0 then zero else nth (Z.to_nat p) cont zero.

(** Modelled from the spec: [container::resize(n)]. *)
Definition resize (cont : container) (n : Z) : container :=
  firstn (Z.to_nat n) cont ++ repeat zero (Z.to_nat n - List.length cont).

(** Runs a writing computation on the storage of the container. *)
Definition on_storage (cont : container) (c : M Z) : Z * container :=
  let '(r, m) := c (storage cont) in (r, load m 0 (List.length cont)).

(** The body shared by [catrs], [catseprs] and [formatrs] (overwriting):
    at the label [retry] the container is viewed as a buffer [buf], the
    engine is run on it and returns [ret], the container is resized to
    [ret], and control jumps back to [retry] when [ret > buf.len].
    [fuel] bounds the number of passes; the second component of the result
    counts the passes made, that is the calls of the engine. *)
Fixpoint retry_overwrite (engine : substr -> M Z) (fuel : nat) (cont : container)
  : option (container * nat) :=
  match fuel with
  | O => None
  | S fuel' =>
      let buf := to_substr cont in
      let '(r, cont) := on_storage cont (engine buf) in
      let cont := resize cont r in
      if r >? len buf then
        match retry_overwrite engine fuel' cont with
        | Some (c, n) => Some (c, S n)
        | None => None
        end
      else Some (cont, 1%nat)
  end.

(** The body of the appending overloads; [pos] is the size of the container
    at the call. *)
Fixpoint retry_append (engine : substr -> M Z) (pos : Z) (fuel : nat)
    (cont : container) : option (container * nat) :=
  match fuel with
  | O => None
  | S fuel' =>
      let buf := sub (to_substr cont) pos in
      let '(r, cont) := on_storage cont (engine buf) in
      let cont := resize cont (wrap (pos + r)) in
      if r >? len buf then
        match retry_append engine pos fuel' cont with
        | Some (c, n) => Some (c, S n)
        | None => None
        end
      else Some (cont, 1%nat)
  end.

(** The region an appending overload returns:
    the range [pos, size) of the container. *)
Definition appended (pos : Z) (r : option (container * nat))
  : option (container * csubstr * nat) :=
  match r with
  | Some (c, n) => Some (c, csub c pos, n)
  | None => None
  end.

Definition catrs (fuel : nat) (cont : container) (args : list arg) :=
  retry_overwrite (fun buf => cat buf args) fuel cont.

Definition catrs_append (fuel : nat) (cont : container) (args : list arg) :=
  let pos := clen cont in
  appended pos (retry_append (fun buf => cat buf args) pos fuel cont).

(** [catseprs] with a separator and no argument returns at once. *)
Definition catseprs (fuel : nat) (cont : container) (sep : arg) (args : list arg) :=
  match args with
  | [] => Some (cont, 0%nat)
  | a :: more => retry_overwrite (fun buf => catsep buf sep a more) fuel cont
  end.

Definition catseprs_append (fuel : nat) (cont : container) (sep : arg)
    (args : list arg) :=
  match args with
  | [] => Some (cont, ([] : csubstr), 0%nat)
  | a :: more =>
      let pos := clen cont in
      appended pos (retry_append (fun buf => catsep buf sep a more) pos fuel cont)
  end.

Definition formatrs (fuel : nat) (cont : container) (fmt : csubstr)
    (args : list arg) :=
  retry_overwrite (fun buf => format buf fmt args) fuel cont.

Definition formatrs_append (fuel : nat) (cont : container) (fmt : csubstr)
    (args : list arg) :=
  let pos := clen cont in
  appended pos (retry_append (fun buf => format buf fmt args) pos fuel cont).

(** ** Value wrappers *)

Module fmt.

(** The conversion [val_ ? true : false] of a value of type [T]. *)
Class ToBool (T : Type) : Type :=
  to_bool : T -> bool.

(** Integers of every width and signedness convert to [true] exactly when
    they are not zero. *)
#[global] Instance to_bool_integer : ToBool Z := fun v => negb (v =? 0).
#[global] Instance to_bool_bool : ToBool bool := fun v => v.

Record boolalpha_ (T : Type) : Type := mk_boolalpha_ {
  val : bool;
  strict_read : bool
}.
Arguments mk_boolalpha_ {T} val strict_read.
Arguments val {T} b.
Arguments strict_read {T} b.

Definition boolalpha {T} `{ToBool T} (val_ : T) (strict_read_ : bool)
  : boolalpha_ T :=
  mk_boolalpha_ (if to_bool val_ then true else false) strict_read_.

#[global] Instance to_chars_boolalpha {T} : ToChars (boolalpha_ T) :=
  fun buf fmt => to_chars buf (if val fmt then cs "true" else cs "false").

(** [blob_<T>]: an untyped (pointer, length) region. *)
Record blob : Type := mk_blob { blob_buf : Z; blob_len : Z }.

Record raw_wrapper_ : Type := mk_raw_wrapper_ {
  raw_data : blob;
  alignment : Z
}.

(** The constructor of [raw_wrapper_]; [alignment_] is a [size_t]. *)
Definition raw_wrapper_ctor (data : blob) (alignment_ : Z)
  : checked raw_wrapper_ :=
  C4_ASSERT_MSG
    ((alignment_ >? 0) && (Z.land alignment_ (wrap (alignment_ - 1)) =? 0))
    "alignment must be a power of two"
    (mk_raw_wrapper_ data alignment_).

Definition craw (data : blob) (alignment_ : Z) : checked raw_wrapper_ :=
  raw_wrapper_ctor data alignment_.

Definition raw (data : blob) (alignment_ : Z) : checked raw_wrapper_ :=
  raw_wrapper_ctor data alignment_.

End fmt.

(** [from_chars_first] for a raw wrapper returns what [from_chars] returns,
    a [bool], converted to [size_t].  [from_chars] for raw wrappers is
    declared in this file and defined elsewhere: its result on the input and
    the wrapper is the parameter [from_chars_raw]. *)
Definition from_chars_first_raw
    (from_chars_raw : csubstr -> fmt.raw_wrapper_ -> bool)
    (buf : csubstr) (r : fmt.raw_wrapper_) : Z :=
  if from_chars_raw buf r then 1 else 0.

(** ** Overloads of the customization points for built-in types *)

(** Modelled from the spec: [to_chars] and [from_chars_first] for [char]
    and for integers, of c4/charconv.hpp (not in this file).  A character
    is one character of text.  An integer is written in decimal, with a
    minus sign when negative, and read from the longest run of digits,
    after an optional minus sign, at the start of the input. *)
#[global] Instance to_chars_char : ToChars ascii :=
  fun buf v => to_chars buf [v].

(** Modelled from the spec: [from_chars_first] for [char]: the first
    character of the input, [npos] on an empty input. *)
#[global] Instance from_chars_first_char : FromChars ascii :=
  fun buf v =>
    match buf with
    | [] => (npos, v)
    | c :: _ => (1, c)
    end.

(** Modelled from the spec: the decimal digits of an unsigned integer. *)
Definition utoa_text (n : N) : list ascii :=
  list_ascii_of_string (NilEmpty.string_of_uint (N.to_uint n)).

(** Modelled from the spec: the decimal text of a signed integer. *)
Definition itoa_text (v : Z) : list ascii :=
  if v <? 0 then "-"%char :: utoa_text (Z.to_N (- v)) else utoa_text (Z.to_N v).

(** Modelled from the spec: [to_chars] for integers; as for text, the
    characters that fit are written. *)
#[global] Instance to_chars_int : ToChars Z :=
  fun buf v => to_chars buf (itoa_text v).

Definition is_digit (c : ascii) : bool :=
  ((48 <=? N_of_ascii c) && (N_of_ascii c <=? 57))%N.

(** The longest run of digits at the start of [s]. *)
Fixpoint digit_span (s : list ascii) : list ascii :=
  match s with
  | c :: s' => if is_digit c then c :: digit_span s' else []
  | [] => []
  end.

(** Modelled from the spec: the value of a run of decimal digits. *)
Definition atou (d : list ascii) : option N :=
  match NilEmpty.uint_of_string (string_of_list_ascii d) with
  | Some u => Some (N.of_uint u)
  | None => None
  end.

(** Modelled from the spec: [from_chars_first] for integers: an optional
    minus sign and the digits that follow it; [npos], with the variable
    left as it was, when there is no digit. *)
#[global] Instance from_chars_first_int : FromChars Z :=
  fun buf v =>
    let '(neg, body) :=
      match buf with
      | c :: r => if Ascii.eqb c "-" then (true, r) else (false, buf)
      | [] => (false, buf)
      end in
    let d := digit_span body in
    match d, atou d with
    | _ :: _, Some n =>
        (clen d + (if neg then 1 else 0),
         if neg then - Z.of_N n else Z.of_N n)
    | _, _ => (npos, v)
    end.

(** Argument packs of the built-in types. *)
Definition str_arg (s : string) : arg := mk_arg (cs s).
Definition int_arg (v : Z) : arg := mk_arg v.
Definition char_arg (c : ascii) : arg := mk_arg c.
Definition int_ref (v : Z) : ref := mk_ref v.
Definition char_ref (c : ascii) : ref := mk_ref c.

(** A buffer of [n] characters at address 0. *)
Definition buffer (n : Z) : substr := mk_substr 0 n.

(** Storage holding the null character everywhere. *)
Definition blank : mem := fun _ => zero.

(** What the buffer [buf] holds after the computation [c] ran on the
    storage [m]: as many characters as [c] returned, from the start of the
    buffer. *)
Definition written (c : M Z) (buf : substr) (m : mem) : list ascii :=
  let '(r, m') := c m in load m' (str buf) (Z.to_nat r).

(** ** The sizing contract *)

(** No character outside the view [buf] differs between [m] and [m']. *)
Definition untouched_outside (buf : substr) (m m' : mem) : Prop :=
  forall p, ~ (str buf <= p < str buf + len buf) -> m' p = m p.

(** The contract of the [to_chars] overload of one argument: no write
    outside the view, the same returned size for every view, the same
    output in every view that can hold it, and a returned size that is not
    negative. *)
Record sizing_contract (a : arg) : Prop := {
  sc_frame : forall buf m, untouched_outside buf m (snd (write buf a m));
  sc_size : forall buf buf' m m', fst (write buf a m) = fst (write buf' a m');
  sc_nonneg : forall buf m, 0 <= fst (write buf a m);
  sc_output : forall buf buf' m m',
    let R := fst (write buf a m) in
    R <= len buf -> R <= len buf' ->
    load (snd (write buf a m)) (str buf) (Z.to_nat R) =
    load (snd (write buf' a m')) (str buf') (Z.to_nat R)
}.

(** A view a caller can form: its length, a [size_t], has not been taken
    below 0 by a subtraction. *)
Definition well_formed (buf : substr) : Prop := 0 <= len buf.

(** The same contract, asked only on the views a caller can form: of what
    the overload does on another view it says nothing. *)
Record view_contract (a : arg) : Prop := {
  vc_frame : forall buf m,
    well_formed buf -> untouched_outside buf m (snd (write buf a m));
  vc_size : forall buf buf' m m',
    well_formed buf -> well_formed buf' ->
    fst (write buf a m) = fst (write buf' a m');
  vc_nonneg : forall buf m, well_formed buf -> 0 <= fst (write buf a m);
  vc_output : forall buf buf' m m',
    well_formed buf -> well_formed buf' ->
    let R := fst (write buf a m) in
    R <= len buf -> R <= len buf' ->
    load (snd (write buf a m)) (str buf) (Z.to_nat R) =
    load (snd (write buf' a m')) (str buf') (Z.to_nat R)
}.

(** The size an argument asks for, measured on the null view, and its
    text, taken from a buffer of exactly that size. *)
Definition required (a : arg) : Z := fst (write substr_nil a blank).

Definition rendered (a : arg) : list ascii :=
  load (snd (write (buffer (required a)) a blank)) 0 (Z.to_nat (required a)).

(** The complete output of [cat], and the size [cat] returns. *)
Definition cat_text (args : list arg) : list ascii :=
  List.concat (map rendered args).

Fixpoint cat_size (args : list arg) : Z :=
  match args with
  | [] => 0
  | a :: more => wrap (required a + cat_size more)
  end.

(** The complete output of [catsep] and the size it returns. *)
Definition catsep_more_text (sep : arg) (args : list arg) : list ascii :=
  List.concat (map (fun a => rendered sep ++ rendered a) args).

Definition catsep_text (sep a : arg) (more : list arg) : list ascii :=
  rendered a ++ catsep_more_text sep more.

Fixpoint catsep_more_size (sep : arg) (args : list arg) : Z :=
  match args with
  | [] => 0
  | a :: more =>
      wrap (wrap (required sep + required a) + catsep_more_size sep more)
  end.

Definition catsep_size (sep a : arg) (more : list arg) : Z :=
  wrap (required a + catsep_more_size sep more).

(** The complete output of [format] and the size it returns. *)
Fixpoint format_text (fmt : csubstr) (args : list arg) : list ascii :=
  match args with
  | [] => fmt
  | a :: more =>
      let pos := find fmt placeholder in
      if pos =? npos then fmt else
      csub_n fmt 0 pos ++ rendered a ++
      format_text (csub fmt (wrap (pos + 2))) more
  end.

Fixpoint format_size (fmt : csubstr) (args : list arg) : Z :=
  match args with
  | [] => clen fmt
  | a :: more =>
      let pos := find fmt placeholder in
      if pos =? npos then clen fmt else
      wrap (wrap (clen (csub_n fmt 0 pos) + required a) +
            format_size (csub fmt (wrap (pos + 2))) more)
  end.

(** [renders c x t]: on every buffer the computation [c] returns [x],
    writes nothing outside the buffer, and leaves the text [t] at the start
    of the buffer when the buffer can hold it. *)
Definition renders {A} (c : substr -> M A) (x : A) (t : list ascii) : Prop :=
  forall buf m,
    fst (c buf m) = x /\
    untouched_outside buf m (snd (c buf m)) /\
    (clen t <= len buf ->
     load (snd (c buf m)) (str buf) (List.length t) = t).

(** One write followed by a computation on the rest of the buffer: the
    shape of every step of the engines. *)
Definition and_then {A B} (c1 : substr -> M Z) (c2 : substr -> M A)
    (f : Z -> A -> B) : substr -> M B :=
  fun buf =>
    num <- c1 buf ;;
    r <- c2 (advance buf num) ;;
    ret (f num r).

(** [renders], on the views a caller can form. *)
Definition renders_in_views {A} (c : substr -> M A) (x : A) (t : list ascii)
  : Prop :=
  forall buf m,
    well_formed buf ->
    fst (c buf m) = x /\
    untouched_outside buf m (snd (c buf m)) /\
    (clen t <= len buf ->
     load (snd (c buf m)) (str buf) (List.length t) = t).

(** [required] and [rendered] are what the overload of the argument
    reports and writes on every buffer: it returns [required], and leaves
    [rendered] in a buffer that can hold it. *)
Definition reports (a : arg) : Prop :=
  forall buf m,
    well_formed buf ->
    fst (write buf a m) = required a /\
    (required a <= len buf -> written (write buf a) buf m = rendered a).

(** [serializes engine R t]: on every buffer [engine] returns the size [R]
    and writes nothing outside the buffer; and, when the text [t] is of a
    length a [size_t] holds, [R] is the length of [t], a buffer of at least
    [R] characters holds [t] after the call, and so a buffer of exactly [R]
    characters holds what any longer one holds. *)
Definition serializes (engine : substr -> M Z) (R : Z) (t : list ascii)
  : Prop :=
  (forall buf m,
      well_formed buf ->
      fst (engine buf m) = R /\
      untouched_outside buf m (snd (engine buf m))) /\
  (clen t <= size_max ->
   R = clen t /\
   (forall buf m, R <= len buf -> written (engine buf) buf m = t) /\
   (forall buf buf' m m',
       len buf = R -> R <= len buf' ->
       written (engine buf) buf m = written (engine buf') buf' m')).

(** ** The sub-parse that fails *)

(** [uncat_fails_at k buf args]: in [uncat buf args] the sub-parses of the
    arguments before the [k]-th (counted from 0) succeed, and the sub-parse
    of the [k]-th returns [npos]. *)
Fixpoint uncat_fails_at (k : nat) (buf : csubstr) (args : list ref) : Prop :=
  match args with
  | [] => False
  | a :: more =>
      let out := fst (read buf a) in
      match k with
      | O => out = npos
      | S k' => out <> npos /\ uncat_fails_at k' (cadvance buf out) more
      end
  end.



(** The same for [unformat]: the template has a placeholder for each of the
    arguments up to the [k]-th, and the sub-parse of the [k]-th returns
    [npos]. *)
Fixpoint unformat_fails_at (k : nat) (buf fmt : csubstr) (args : list ref)
  : Prop :=
  match args with
  | [] => False
  | a :: more =>
      let pos := find fmt placeholder in
      let buf1 := cadvance buf pos in
      let num := fst (read buf1 a) in
      pos <> npos /\
      match k with
      | O => num = npos
      | S k' =>
          num <> npos /\
          unformat_fails_at k' (cadvance buf1 num) (csub fmt (wrap (pos + 2))) more
      end
  end.

(** ** Templates on the reading side *)

(** [same_shape fmt fmt']: the two templates have the same length and their
    placeholders at the same offsets; their other characters are free. *)
Definition same_shape (fmt fmt' : csubstr) : Prop :=
  List.length fmt = List.length fmt' /\
  forall i : nat,
    starts_with placeholder (skipn i fmt) =
    starts_with placeholder (skipn i fmt').

(** What it would be for the text of the template before a placeholder to
    take nothing from the input: the argument of a template [lit ++ "{}"]
    would be read as that of the template ["{}"] is. *)
Definition literal_spans_consume_no_input : Prop :=
  forall (buf lit : csubstr) (a : ref),
    find lit placeholder = npos ->
    unformat buf (lit ++ placeholder) [a] = unformat buf placeholder [a].

(** ** Round trips *)

(** A value of a type that has both customization points. *)
Record value : Type := mk_value {
  value_type : Type;
  value_to_chars : ToChars value_type;
  value_from_chars : FromChars value_type;
  value_val : value_type
}.
Arguments mk_value {value_type value_to_chars value_from_chars} value_val.

(** The value as an argument of [cat]; a variable of its type, as an
    argument of [uncat]; the variable once it holds the value. *)
Definition as_arg (v : value) : arg :=
  @mk_arg _ (value_to_chars v) (value_val v).

Definition variable (v : value) (init : value_type v) : ref :=
  @mk_ref _ (value_from_chars v) init.

Definition holding (v : value) : ref := variable v (value_val v).

Definition fresh_for (v : value) (r : ref) : Prop :=
  exists init : value_type v, r = variable v init.

(** The pair of overloads of the type of [v] is round-trip consistent: what
    [to_chars] writes of any value of the type into a buffer that holds it,
    [from_chars_first] reads back as that value, consuming all of it. *)
Definition round_trip_consistent (v : value) : Prop :=
  forall (x init : value_type v) (buf : substr) (m : mem),
    let c := @to_chars _ (value_to_chars v) buf x in
    fst (c m) <= len buf ->
    @from_chars_first _ (value_from_chars v) (written c buf m) init =
    (fst (c m), x).

(** The round-trip law as the documentation states it. *)
Definition round_trip_law : Prop :=
  forall (vs : list value) (rs : list ref) (buf : substr) (m : mem),
    Forall (fun v => sizing_contract (as_arg v)) vs ->
    Forall round_trip_consistent vs ->
    Forall2 fresh_for vs rs ->
    let c := cat buf (map as_arg vs) in
    fst (c m) <= len buf ->
    fst (uncat (written c buf m) rs) <> npos /\
    snd (uncat (written c buf m) rs) = map holding vs.

(** Each value is read back from its text followed by the text of the
    values after it: [from_chars_first] stops where the text of the value
    ends. *)
Fixpoint reads_back (vs : list value) : Prop :=
  match vs with
  | [] => True
  | v :: more =>
      (forall init : value_type v,
          @from_chars_first _ (value_from_chars v)
            (cat_text (map as_arg (v :: more))) init =
          (required (as_arg v), value_val v)) /\
      reads_back more
  end.

Definition int_value (v : Z) : value := mk_value v.
Definition char_value (c : ascii) : value := mk_value c.

(** ** Substitution, as the documentation describes it *)

(** The template is scanned from the left.  While arguments remain, a
    placeholder is replaced by the text of the next argument and the scan
    goes on after the placeholder; every other character is copied.  Once
    the arguments are used up the rest of the template is copied as it is,
    placeholders included. *)
Fixpoint substitute (fmt : list ascii) (texts : list (list ascii)) {struct fmt}
  : list ascii :=
  match texts, fmt with
  | [], _ => fmt
  | _ :: _, [] => []
  | t :: texts', c :: fmt' =>
      match fmt' with
      | d :: rest =>
          if Ascii.eqb "{" c && Ascii.eqb "}" d
          then t ++ substitute rest texts'
          else c :: substitute fmt' texts
      | [] => [c]
      end
  end.

(** The number of placeholders of a template, scanned the same way. *)
Fixpoint count_placeholders (fmt : list ascii) : nat :=
  match fmt with
  | [] => 0%nat
  | c :: fmt' =>
      match fmt' with
      | d :: rest =>
          if Ascii.eqb "{" c && Ascii.eqb "}" d
          then S (count_placeholders rest)
          else count_placeholders fmt'
      | [] => 0%nat
      end
  end.

(** ** Sizes and counts used in the statements below *)

(** The sum of the sizes the arguments ask for. *)
Definition sum_required (args : list arg) : Z :=
  fold_right (fun a s => required a + s) 0 args.

(** The overloads that create the container: a default-constructed
    container is empty. *)
Definition catrs_new (fuel : nat) (args : list arg) :=
  catrs fuel [] args.

Definition catseprs_new (fuel : nat) (sep : arg) (args : list arg) :=
  catseprs fuel [] sep args.

Definition formatrs_new (fuel : nat) (fmt : csubstr) (args : list arg) :=
  formatrs fuel [] fmt args.

(** The number of arguments [format] substitutes: one for each placeholder,
    as long as arguments remain. *)
Definition substituted (fmt : csubstr) (args : list arg) : nat :=
  Nat.min (count_placeholders fmt) (List.length args).

(** The template made of [n] placeholders and nothing else. *)
Definition bare_placeholders (n : nat) : csubstr :=
  List.concat (repeat placeholder n).

(** ** Reading back what [catsep] and [format] wrote *)

(** Each separator, and each value after it, is read back from its text
    followed by the text that follows it in the output of [catsep]. *)
Fixpoint reads_back_separated (sep : value) (vs : list value) : Prop :=
  match vs with
  | [] => True
  | v :: more =>
      (forall init : value_type sep,
          @from_chars_first _ (value_from_chars sep)
            (catsep_more_text (as_arg sep) (map as_arg (v :: more))) init =
          (required (as_arg sep), value_val sep)) /\
      (forall init : value_type v,
          @from_chars_first _ (value_from_chars v)
            (rendered (as_arg v) ++
             catsep_more_text (as_arg sep) (map as_arg more)) init =
          (required (as_arg v), value_val v)) /\
      reads_back_separated sep more
  end.

(** What is left of the template after its first [n] placeholders. *)
Fixpoint template_rest (fmt : csubstr) (n : nat) : csubstr :=
  match n with
  | O => fmt
  | S k => template_rest (csub fmt (wrap (find fmt placeholder + 2))) k
  end.

(** Each value is read back from its text followed by the rest of the
    output of [format]. *)
Fixpoint reads_back_formatted (fmt : csubstr) (vs : list value) : Prop :=
  match vs with
  | [] => True
  | v :: more =>
      let rest := csub fmt (wrap (find fmt placeholder + 2)) in
      (forall init : value_type v,
          @from_chars_first _ (value_from_chars v)
            (rendered (as_arg v) ++ format_text rest (map as_arg more)) init =
          (required (as_arg v), value_val v)) /\
      reads_back_formatted rest more
  end.

(** ** Raw wrappers on the reading side *)

(** The overload of [from_chars_first] for a raw wrapper, as an overload of
    the customization point.  [from_chars] copies into the region the
    wrapper describes and leaves the wrapper as it is; the region is not
    part of this model. *)
Definition from_chars_first_raw_wrapper
    (from_chars_raw : csubstr -> fmt.raw_wrapper_ -> bool)
  : FromChars fmt.raw_wrapper_ :=
  fun buf r => (from_chars_first_raw from_chars_raw buf r, r).

Definition raw_ref (from_chars_raw : csubstr -> fmt.raw_wrapper_ -> bool)
    (r : fmt.raw_wrapper_) : ref :=
  @mk_ref _ (from_chars_first_raw_wrapper from_chars_raw) r.

(** What a run over raw wrappers comes to: the number of wrappers for which
    [from_chars] answers yes, each asked on the input as the ones before it
    left it, one character further on after every yes and where it was
    after every no. *)
Fixpoint raw_reads (from_chars_raw : csubstr -> fmt.raw_wrapper_ -> bool)
    (buf : csubstr) (rs : list fmt.raw_wrapper_) : Z :=
  match rs with
  | [] => 0
  | r :: more =>
      if from_chars_raw buf r
      then 1 + raw_reads from_chars_raw (skipn 1 buf) more
      else raw_reads from_chars_raw buf more
  end.

(** ** The benchmark's supply of numbers *)

(** [ranf<FloatType>] of bm/to_chars.cpp: the numbers drawn at construction
    and a cursor.  The numbers are only handed out, so their type is a
    parameter. *)
Record ranf (A : Type) : Type := mk_ranf { ranf_v : list A; ranf_curr : Z }.
Arguments mk_ranf {A} ranf_v ranf_curr.
Arguments ranf_v {A} r.
Arguments ranf_curr {A} r.

(** The constructor, given the numbers [std::generate] draws. *)
Definition ranf_ctor {A} (drawn : list A) : ranf A := mk_ranf drawn 0.

(** [next()]: the number under the cursor, and the cursor moved on,
    [curr = (curr + 1) % v.size()].  [d] stands for what an access outside
    the vector would give. *)
Definition ranf_next {A} (d : A) (r : ranf A) : A * ranf A :=
  (nth (Z.to_nat (ranf_curr r)) (ranf_v r) d,
   mk_ranf (ranf_v r)
     (wrap (ranf_curr r + 1) mod Z.of_nat (List.length (ranf_v r)))).

(** [n] calls of [next()] in a row, as the benchmark loops make them. *)
Fixpoint ranf_run {A} (d : A) (n : nat) (r : ranf A) : list A * ranf A :=
  match n with
  | O => ([], r)
  | S k =>
      let '(x, r1) := ranf_next d r in
      let '(xs, r2) := ranf_run d k r1 in
      (x :: xs, r2)
  end.

(** A state [next()] can be called in: the vector is not empty, its size
    is a [size_t], and the cursor is inside it. *)
Definition ranf_ok {A} (r : ranf A) : Prop :=
  0 <= ranf_curr r < Z.of_nat (List.length (ranf_v r)) /\
  Z.of_nat (List.length (ranf_v r)) <= size_max.

(** * Properties *)

(** ** Storage *)

Lemma wrap_small (z : Z) : 0 <= z <= size_max -> wrap z = z.
Proof.
  unfold wrap, size_max. intros H. apply Z.mod_small. lia.
Qed.

Lemma wrap_range (z : Z) : 0 <= wrap z <= size_max.
Proof.
  unfold wrap, size_max.
  assert (0 <= z mod 2 ^ size_bits < 2 ^ size_bits)
    by (apply Z.mod_pos_bound; reflexivity).
  lia.
Qed.

Lemma load_length (m : mem) (n : nat) : forall p, List.length (load m p n) = n.
Proof.
  induction n as [|n IH]; intros p; simpl; [reflexivity | now rewrite IH].
Qed.

Lemma load_app (m : mem) (n k : nat) :
  forall p, load m p (n + k) = load m p n ++ load m (p + Z.of_nat n) k.
Proof.
  induction n as [|n IH]; intros p.
  - simpl. now rewrite Z.add_0_r.
  - cbn [Nat.add load app]. rewrite IH. do 3 f_equal. lia.
Qed.

Lemma load_ext (m m' : mem) (n : nat) :
  forall p, (forall q, p <= q < p + Z.of_nat n -> m' q = m q) ->
            load m' p n = load m p n.
Proof.
  induction n as [|n IH]; intros p H; [reflexivity|].
  cbn [load]. f_equal.
  - apply H. lia.
  - apply IH. intros q Hq. apply H. lia.
Qed.

Lemma memcpy_outside (src : list ascii) :
  forall m dst q, ~ (dst <= q < dst + clen src) -> memcpy m dst src q = m q.
Proof.
  unfold clen. induction src as [|c src IH]; intros m dst q H; [reflexivity|].
  cbn [memcpy]. rewrite IH.
  - unfold store. destruct (Z.eqb_spec q dst); [|reflexivity].
    exfalso. apply H. cbn [List.length]. lia.
  - cbn [List.length] in H. lia.
Qed.

Lemma load_memcpy (src : list ascii) :
  forall m dst, load (memcpy m dst src) dst (List.length src) = src.
Proof.
  induction src as [|c src IH]; intros m dst; [reflexivity|].
  cbn [memcpy List.length load]. f_equal.
  - rewrite memcpy_outside by lia. unfold store. now rewrite Z.eqb_refl.
  - apply IH.
Qed.

(** ** The shape of a step *)

Lemma renders_ext {A} (c c' : substr -> M A) (x : A) (t : list ascii) :
  (forall buf m, c' buf m = c buf m) -> renders c x t -> renders c' x t.
Proof.
  intros E H buf m. rewrite E. apply H.
Qed.

Lemma advance_inside (buf : substr) (num p : Z) :
  0 <= num ->
  str (advance buf num) <= p < str (advance buf num) + len (advance buf num) ->
  str buf + num <= p < str buf + len buf.
Proof.
  unfold advance. intros Hn.
  destruct (Z.geb_spec (len buf) num); cbn [sub str len substr_nil]; lia.
Qed.

Lemma renders_and_then {A B} (c1 : substr -> M Z) (c2 : substr -> M A)
    (f : Z -> A -> B) (t1 t2 : list ascii) (x : A) :
  renders c1 (clen t1) t1 -> renders c2 x t2 ->
  renders (and_then c1 c2 f) (f (clen t1) x) (t1 ++ t2).
Proof.
  intros H1 H2 buf m. unfold and_then, bind, ret.
  destruct (H1 buf m) as (S1 & F1 & O1).
  destruct (c1 buf m) as [num m1] eqn:E1. cbn [fst snd] in S1, F1, O1.
  subst num.
  assert (Hn : 0 <= clen t1) by (unfold clen; lia).
  destruct (H2 (advance buf (clen t1)) m1) as (S2 & F2 & O2).
  destruct (c2 (advance buf (clen t1)) m1) as [r m2] eqn:E2.
  cbn [fst snd] in *. subst r.
  split; [reflexivity|]. split.
  - intros p Hp. rewrite F2, F1; auto.
    intros Hin. apply advance_inside in Hin; lia.
  - intros Hfit. unfold clen in Hfit. rewrite length_app in *.
    rewrite load_app. f_equal.
    + transitivity (load m1 (str buf) (List.length t1)).
      * apply load_ext. intros q Hq. apply F2.
        intros Hin. apply advance_inside in Hin; unfold clen in *; lia.
      * apply O1. unfold clen. lia.
    + assert (Ea : advance buf (clen t1) = sub buf (clen t1)).
      { unfold advance. destruct (Z.geb_spec (len buf) (clen t1)); [reflexivity|].
        unfold clen in *. lia. }
      rewrite Ea in O2. cbn [sub str len] in O2. apply O2.
      unfold clen. lia.
Qed.

Lemma renders_ret {A} (x : A) : renders (fun _ => ret x) x [].
Proof.
  intros buf m. cbn. split; [reflexivity|].
  split; [intros p _; reflexivity | intros _; reflexivity].
Qed.

(** The modelled overload for [csubstr] renders its characters. *)
Lemma renders_csubstr (v : csubstr) :
  renders (fun buf => to_chars buf v) (clen v) v.
Proof.
  intros buf m. unfold to_chars, to_chars_csubstr. cbn [fst snd].
  split; [reflexivity|]. split.
  - intros p Hp. apply memcpy_outside.
    unfold clen in *. rewrite length_firstn.
    destruct (Z.ltb_spec (len buf) (Z.of_nat (List.length v))); lia.
  - intros Hfit. destruct (Z.ltb_spec (len buf) (clen v)); [lia|].
    unfold clen. rewrite Nat2Z.id, firstn_all. apply load_memcpy.
Qed.

(** ** From the contract of an argument to its text, and back *)

Lemma required_nonneg (a : arg) : sizing_contract a -> 0 <= required a.
Proof.
  intros C. apply (sc_nonneg a C).
Qed.

Lemma rendered_length (a : arg) :
  sizing_contract a -> clen (rendered a) = required a.
Proof.
  intros C. unfold clen, rendered. rewrite load_length.
  apply Z2Nat.id, required_nonneg, C.
Qed.

Lemma contract_renders (a : arg) :
  sizing_contract a ->
  renders (fun buf => write buf a) (required a) (rendered a).
Proof.
  intros C buf m.
  assert (S : fst (write buf a m) = required a) by apply (sc_size a C).
  split; [exact S|]. split; [apply (sc_frame a C)|].
  rewrite (rendered_length a C). intros Hfit.
  unfold rendered at 1. rewrite load_length.
  pose proof (sc_output a C buf (buffer (required a)) m blank) as O.
  cbv zeta in O. rewrite S in O. apply O; [exact Hfit | cbn; lia].
Qed.

Lemma renders_contract (a : arg) (t : list ascii) :
  renders (fun buf => write buf a) (clen t) t -> sizing_contract a.
Proof.
  intros R. constructor.
  - intros buf m. apply R.
  - intros buf buf' m m'.
    destruct (R buf m) as (-> & _). now destruct (R buf' m') as (-> & _).
  - intros buf m. destruct (R buf m) as (-> & _). unfold clen. lia.
  - intros buf buf' m m'. cbv zeta.
    destruct (R buf m) as (S & _ & O). destruct (R buf' m') as (_ & _ & O').
    cbv beta in S. rewrite S. intros H H'.
    replace (Z.to_nat (clen t)) with (List.length t)
      by (unfold clen; now rewrite Nat2Z.id).
    now rewrite O, O'.
Qed.

(** ** cat *)

Lemma cat_renders (args : list arg) :
  Forall sizing_contract args ->
  renders (fun buf => cat buf args) (cat_size args) (cat_text args).
Proof.
  induction 1 as [|a more Ca _ IH].
  - apply renders_ret.
  - cbn [cat_size cat_text map List.concat].
    rewrite <- (rendered_length a Ca).
    apply renders_ext with
      (c := and_then (fun buf => write buf a) (fun buf => cat buf more)
              (fun num r => wrap (num + r))).
    + reflexivity.
    + apply (renders_and_then (fun buf => write buf a)
               (fun buf => cat buf more) (fun num r => wrap (num + r))
               (rendered a) (cat_text more) (cat_size more)); [|exact IH].
      rewrite (rendered_length a Ca). now apply contract_renders.
Qed.

Lemma cat_size_total (args : list arg) :
  Forall sizing_contract args ->
  clen (cat_text args) <= size_max -> cat_size args = clen (cat_text args).
Proof.
  induction 1 as [|a more Ca _ IH]; [reflexivity|].
  cbn [cat_size cat_text map List.concat]. unfold clen in *.
  rewrite length_app, Nat2Z.inj_add. fold (clen (rendered a)).
  rewrite (rendered_length a Ca). intros Hmax.
  pose proof (required_nonneg a Ca).
  fold (cat_text more) in *.
  rewrite IH by lia. apply wrap_small. lia.
Qed.

(** ** catsep *)

Lemma catsep_more_renders (sep : arg) (args : list arg) :
  sizing_contract sep -> Forall sizing_contract args ->
  renders (fun buf => detail.catsep_more buf sep args)
    (catsep_more_size sep args) (catsep_more_text sep args).
Proof.
  intros Cs. induction 1 as [|a more Ca _ IH].
  - apply renders_ret.
  - cbn [catsep_more_size catsep_more_text map List.concat].
    rewrite <- app_assoc.
    rewrite <- (rendered_length sep Cs), <- (rendered_length a Ca).
    apply renders_ext with
      (c := and_then (fun buf => write buf sep)
              (and_then (fun buf => write buf a)
                 (fun buf => detail.catsep_more buf sep more) pair)
              (fun r p => wrap (wrap (r + fst p) + snd p))).
    + intros buf m. unfold and_then, bind, ret. cbn [detail.catsep_more].
      unfold bind, ret.
      destruct (write buf sep m) as [r m1].
      destruct (write _ a m1) as [r' m2].
      now destruct (detail.catsep_more _ sep more m2) as [r'' m3].
    + apply (renders_and_then (fun buf => write buf sep)
               (and_then (fun buf => write buf a)
                  (fun buf => detail.catsep_more buf sep more) pair)
               (fun r p => wrap (wrap (r + fst p) + snd p))
               (rendered sep) (rendered a ++ catsep_more_text sep more)
               (clen (rendered a), catsep_more_size sep more)).
      * rewrite (rendered_length sep Cs). now apply contract_renders.
      * apply (renders_and_then (fun buf => write buf a)
                 (fun buf => detail.catsep_more buf sep more) pair
                 (rendered a) (catsep_more_text sep more)
                 (catsep_more_size sep more)); [|exact IH].
        rewrite (rendered_length a Ca). now apply contract_renders.
Qed.

Lemma catsep_renders (sep a : arg) (more : list arg) :
  sizing_contract sep -> sizing_contract a -> Forall sizing_contract more ->
  renders (fun buf => catsep buf sep a more)
    (catsep_size sep a more) (catsep_text sep a more).
Proof.
  intros Cs Ca Cm. unfold catsep_size, catsep_text.
  rewrite <- (rendered_length a Ca).
  apply renders_ext with
    (c := and_then (fun buf => write buf a)
            (fun buf => detail.catsep_more buf sep more)
            (fun num r => wrap (num + r))).
  - reflexivity.
  - apply (renders_and_then (fun buf => write buf a)
             (fun buf => detail.catsep_more buf sep more)
             (fun num r => wrap (num + r))
             (rendered a) (catsep_more_text sep more)
             (catsep_more_size sep more)); [|now apply catsep_more_renders].
    rewrite (rendered_length a Ca). now apply contract_renders.
Qed.

Lemma catsep_more_size_total (sep : arg) (args : list arg) :
  sizing_contract sep -> Forall sizing_contract args ->
  clen (catsep_more_text sep args) <= size_max ->
  catsep_more_size sep args = clen (catsep_more_text sep args).
Proof.
  intros Cs. induction 1 as [|a more Ca _ IH]; [reflexivity|].
  cbn [catsep_more_size catsep_more_text map List.concat]. unfold clen in *.
  rewrite !length_app, !Nat2Z.inj_add.
  fold (clen (rendered a)) (clen (rendered sep)).
  rewrite (rendered_length a Ca), (rendered_length sep Cs). intros Hmax.
  pose proof (required_nonneg a Ca). pose proof (required_nonneg sep Cs).
  fold (catsep_more_text sep more) in *.
  rewrite IH by lia.
  rewrite (wrap_small (required sep + required a)) by lia.
  apply wrap_small. lia.
Qed.

Lemma catsep_size_total (sep a : arg) (more : list arg) :
  sizing_contract sep -> sizing_contract a -> Forall sizing_contract more ->
  clen (catsep_text sep a more) <= size_max ->
  catsep_size sep a more = clen (catsep_text sep a more).
Proof.
  intros Cs Ca Cm. unfold catsep_size, catsep_text, clen.
  rewrite length_app, Nat2Z.inj_add. fold (clen (rendered a)).
  fold (clen (catsep_more_text sep more)).
  rewrite (rendered_length a Ca). intros Hmax.
  pose proof (required_nonneg a Ca).
  assert (0 <= clen (catsep_more_text sep more)) by (unfold clen; lia).
  rewrite catsep_more_size_total by (auto; lia).
  apply wrap_small. lia.
Qed.

(** ** format *)

Lemma format_renders (args : list arg) :
  Forall sizing_contract args ->
  forall fmt,
    renders (fun buf => format buf fmt args)
      (format_size fmt args) (format_text fmt args).
Proof.
  induction 1 as [|a more Ca _ IH]; intros fmt.
  - apply renders_csubstr.
  - cbn [format format_size format_text].
    destruct (find fmt placeholder =? npos) eqn:Epos.
    + apply renders_csubstr.
    + set (pos := find fmt placeholder) in *.
      set (rest := csub fmt (wrap (pos + 2))).
      rewrite <- (rendered_length a Ca).
      apply renders_ext with
        (c := and_then (fun buf => to_chars buf (csub_n fmt 0 pos))
                (and_then (fun buf => write buf a)
                   (fun buf => format buf rest more) pair)
                (fun n p => wrap (wrap (n + fst p) + snd p))).
      * intros buf m. unfold and_then, bind, ret.
        destruct (to_chars buf (csub_n fmt 0 pos) m) as [n m1].
        destruct (write _ a m1) as [n' m2].
        now destruct (format _ rest more m2) as [n'' m3].
      * apply (renders_and_then
                 (fun buf => to_chars buf (csub_n fmt 0 pos))
                 (and_then (fun buf => write buf a)
                    (fun buf => format buf rest more) pair)
                 (fun n p => wrap (wrap (n + fst p) + snd p))
                 (csub_n fmt 0 pos) (rendered a ++ format_text rest more)
                 (clen (rendered a), format_size rest more)).
        -- apply renders_csubstr.
        -- apply (renders_and_then (fun buf => write buf a)
                    (fun buf => format buf rest more) pair
                    (rendered a) (format_text rest more)
                    (format_size rest more)); [|apply IH].
           rewrite (rendered_length a Ca). now apply contract_renders.
Qed.

Lemma format_size_total (args : list arg) :
  Forall sizing_contract args ->
  forall fmt,
    clen (format_text fmt args) <= size_max ->
    format_size fmt args = clen (format_text fmt args).
Proof.
  induction 1 as [|a more Ca _ IH]; intros fmt; [reflexivity|].
  cbn [format_size format_text].
  destruct (find fmt placeholder =? npos); [reflexivity|].
  set (pre := csub_n fmt 0 (find fmt placeholder)).
  set (rest := csub fmt (wrap (find fmt placeholder + 2))).
  unfold clen at 1 3. rewrite !length_app, !Nat2Z.inj_add.
  fold (clen (rendered a)) (clen pre) (clen (format_text rest more)).
  rewrite (rendered_length a Ca). intros Hmax.
  pose proof (required_nonneg a Ca).
  assert (0 <= clen pre) by (unfold clen; lia).
  assert (0 <= clen (format_text rest more)) by (unfold clen; lia).
  rewrite IH by lia.
  rewrite (wrap_small (clen pre + required a)) by lia.
  rewrite wrap_small by lia. lia.
Qed.

(** ** The exact-size property *)

(** The contract on every view gives the contract on the views a caller
    can form. *)
Lemma contract_in_views (a : arg) : sizing_contract a -> view_contract a.
Proof.
  intros C. constructor.
  - intros buf m _. apply (sc_frame a C).
  - intros buf buf' m m' _ _. apply (sc_size a C).
  - intros buf m _. apply (sc_nonneg a C).
  - intros buf buf' m m' _ _. apply (sc_output a C).
Qed.

Lemma renders_every_view {A} (c : substr -> M A) (x : A) (t : list ascii) :
  renders c x t -> renders_in_views c x t.
Proof.
  intros R buf m _. apply R.
Qed.

(** The view handed on after a write is one a caller can form: the
    comparison of [buf.len] with [num] keeps its length from falling
    below 0. *)
Lemma advance_well_formed (buf : substr) (num : Z) :
  well_formed (advance buf num).
Proof.
  unfold well_formed, advance.
  destruct (Z.geb_spec (len buf) num); cbn [sub len substr_nil]; lia.
Qed.

Lemma renders_in_views_ext {A} (c c' : substr -> M A) (x : A)
    (t : list ascii) :
  (forall buf m, c' buf m = c buf m) ->
  renders_in_views c x t -> renders_in_views c' x t.
Proof.
  intros E H buf m Hwf. rewrite E. now apply H.
Qed.

Lemma renders_in_views_ret {A} (x : A) : renders_in_views (fun _ => ret x) x [].
Proof.
  apply renders_every_view, renders_ret.
Qed.

Lemma renders_in_views_and_then {A B} (c1 : substr -> M Z)
    (c2 : substr -> M A) (f : Z -> A -> B) (t1 t2 : list ascii) (x : A) :
  renders_in_views c1 (clen t1) t1 -> renders_in_views c2 x t2 ->
  renders_in_views (and_then c1 c2 f) (f (clen t1) x) (t1 ++ t2).
Proof.
  intros H1 H2 buf m Hwf. unfold and_then, bind, ret.
  destruct (H1 buf m Hwf) as (S1 & F1 & O1).
  destruct (c1 buf m) as [num m1] eqn:E1. cbn [fst snd] in S1, F1, O1.
  subst num.
  assert (Hn : 0 <= clen t1) by (unfold clen; lia).
  destruct (H2 (advance buf (clen t1)) m1 (advance_well_formed _ _))
    as (S2 & F2 & O2).
  destruct (c2 (advance buf (clen t1)) m1) as [r m2] eqn:E2.
  cbn [fst snd] in *. subst r.
  split; [reflexivity|]. split.
  - intros p Hp. rewrite F2, F1; auto.
    intros Hin. apply advance_inside in Hin; lia.
  - intros Hfit. unfold clen in Hfit. rewrite length_app in *.
    rewrite load_app. f_equal.
    + transitivity (load m1 (str buf) (List.length t1)).
      * apply load_ext. intros q Hq. apply F2.
        intros Hin. apply advance_inside in Hin; unfold clen in *; lia.
      * apply O1. unfold clen. lia.
    + assert (Ea : advance buf (clen t1) = sub buf (clen t1)).
      { unfold advance. destruct (Z.geb_spec (len buf) (clen t1)); [reflexivity|].
        unfold clen in *. lia. }
      rewrite Ea in O2. cbn [sub str len] in O2. apply O2.
      unfold clen. lia.
Qed.

Lemma required_nonneg_in_views (a : arg) : view_contract a -> 0 <= required a.
Proof.
  intros C. apply (vc_nonneg a C). unfold well_formed. cbn. lia.
Qed.

Lemma rendered_length_in_views (a : arg) :
  view_contract a -> clen (rendered a) = required a.
Proof.
  intros C. unfold clen, rendered. rewrite load_length.
  apply Z2Nat.id, required_nonneg_in_views, C.
Qed.

Lemma contract_renders_in_views (a : arg) :
  view_contract a ->
  renders_in_views (fun buf => write buf a) (required a) (rendered a).
Proof.
  intros C buf m Hwf.
  assert (Hnil : well_formed substr_nil) by (unfold well_formed; cbn; lia).
  assert (S : fst (write buf a m) = required a)
    by (apply (vc_size a C); assumption).
  split; [exact S|]. split; [now apply (vc_frame a C)|].
  rewrite (rendered_length_in_views a C). intros Hfit.
  unfold rendered at 1. rewrite load_length.
  pose proof (required_nonneg_in_views a C) as Hpos.
  assert (Hbuf : well_formed (buffer (required a)))
    by (unfold well_formed; cbn; lia).
  pose proof (vc_output a C buf (buffer (required a)) m blank Hwf Hbuf) as O.
  cbv zeta in O. rewrite S in O. apply O; [exact Hfit | cbn; lia].
Qed.

Lemma contract_reports (a : arg) : view_contract a -> reports a.
Proof.
  intros C buf m Hwf.
  destruct (contract_renders_in_views a C buf m Hwf) as (S & _ & O).
  cbv beta in S, O. split; [exact S|].
  rewrite <- (rendered_length_in_views a C). intros Hfit.
  unfold written. destruct (write buf a m) as [n m']. cbn [fst snd] in *.
  subst n. rewrite <- (rendered_length_in_views a C). unfold clen at 1.
  rewrite Nat2Z.id. now apply O.
Qed.

Lemma cat_renders_in_views (args : list arg) :
  Forall view_contract args ->
  renders_in_views (fun buf => cat buf args) (cat_size args) (cat_text args).
Proof.
  induction 1 as [|a more Ca _ IH].
  - apply renders_in_views_ret.
  - cbn [cat_size cat_text map List.concat].
    rewrite <- (rendered_length_in_views a Ca).
    apply renders_in_views_ext with
      (c := and_then (fun buf => write buf a) (fun buf => cat buf more)
              (fun num r => wrap (num + r))).
    + reflexivity.
    + apply (renders_in_views_and_then (fun buf => write buf a)
               (fun buf => cat buf more) (fun num r => wrap (num + r))
               (rendered a) (cat_text more) (cat_size more)); [|exact IH].
      rewrite (rendered_length_in_views a Ca).
      now apply contract_renders_in_views.
Qed.

Lemma catsep_more_renders_in_views (sep : arg) (args : list arg) :
  view_contract sep -> Forall view_contract args ->
  renders_in_views (fun buf => detail.catsep_more buf sep args)
    (catsep_more_size sep args) (catsep_more_text sep args).
Proof.
  intros Cs. induction 1 as [|a more Ca _ IH].
  - apply renders_in_views_ret.
  - cbn [catsep_more_size catsep_more_text map List.concat].
    rewrite <- app_assoc.
    rewrite <- (rendered_length_in_views sep Cs),
      <- (rendered_length_in_views a Ca).
    apply renders_in_views_ext with
      (c := and_then (fun buf => write buf sep)
              (and_then (fun buf => write buf a)
                 (fun buf => detail.catsep_more buf sep more) pair)
              (fun r p => wrap (wrap (r + fst p) + snd p))).
    + intros buf m. unfold and_then, bind, ret. cbn [detail.catsep_more].
      unfold bind, ret.
      destruct (write buf sep m) as [r m1].
      destruct (write _ a m1) as [r' m2].
      now destruct (detail.catsep_more _ sep more m2) as [r'' m3].
    + apply (renders_in_views_and_then (fun buf => write buf sep)
               (and_then (fun buf => write buf a)
                  (fun buf => detail.catsep_more buf sep more) pair)
               (fun r p => wrap (wrap (r + fst p) + snd p))
               (rendered sep) (rendered a ++ catsep_more_text sep more)
               (clen (rendered a), catsep_more_size sep more)).
      * rewrite (rendered_length_in_views sep Cs).
        now apply contract_renders_in_views.
      * apply (renders_in_views_and_then (fun buf => write buf a)
                 (fun buf => detail.catsep_more buf sep more) pair
                 (rendered a) (catsep_more_text sep more)
                 (catsep_more_size sep more)); [|exact IH].
        rewrite (rendered_length_in_views a Ca).
        now apply contract_renders_in_views.
Qed.

Lemma catsep_renders_in_views (sep a : arg) (more : list arg) :
  view_contract sep -> view_contract a -> Forall view_contract more ->
  renders_in_views (fun buf => catsep buf sep a more)
    (catsep_size sep a more) (catsep_text sep a more).
Proof.
  intros Cs Ca Cm. unfold catsep_size, catsep_text.
  rewrite <- (rendered_length_in_views a Ca).
  apply renders_in_views_ext with
    (c := and_then (fun buf => write buf a)
            (fun buf => detail.catsep_more buf sep more)
            (fun num r => wrap (num + r))).
  - reflexivity.
  - apply (renders_in_views_and_then (fun buf => write buf a)
             (fun buf => detail.catsep_more buf sep more)
             (fun num r => wrap (num + r))
             (rendered a) (catsep_more_text sep more)
             (catsep_more_size sep more));
      [|now apply catsep_more_renders_in_views].
    rewrite (rendered_length_in_views a Ca).
    now apply contract_renders_in_views.
Qed.

Lemma format_renders_in_views (args : list arg) :
  Forall view_contract args ->
  forall fmt,
    renders_in_views (fun buf => format buf fmt args)
      (format_size fmt args) (format_text fmt args).
Proof.
  induction 1 as [|a more Ca _ IH]; intros fmt.
  - apply renders_every_view, renders_csubstr.
  - cbn [format format_size format_text].
    destruct (find fmt placeholder =? npos) eqn:Epos.
    + apply renders_every_view, renders_csubstr.
    + set (pos := find fmt placeholder) in *.
      set (rest := csub fmt (wrap (pos + 2))).
      rewrite <- (rendered_length_in_views a Ca).
      apply renders_in_views_ext with
        (c := and_then (fun buf => to_chars buf (csub_n fmt 0 pos))
                (and_then (fun buf => write buf a)
                   (fun buf => format buf rest more) pair)
                (fun n p => wrap (wrap (n + fst p) + snd p))).
      * intros buf m. unfold and_then, bind, ret.
        destruct (to_chars buf (csub_n fmt 0 pos) m) as [n m1].
        destruct (write _ a m1) as [n' m2].
        now destruct (format _ rest more m2) as [n'' m3].
      * apply (renders_in_views_and_then
                 (fun buf => to_chars buf (csub_n fmt 0 pos))
                 (and_then (fun buf => write buf a)
                    (fun buf => format buf rest more) pair)
                 (fun n p => wrap (wrap (n + fst p) + snd p))
                 (csub_n fmt 0 pos) (rendered a ++ format_text rest more)
                 (clen (rendered a), format_size rest more)).
        -- apply renders_every_view, renders_csubstr.
        -- apply (renders_in_views_and_then (fun buf => write buf a)
                    (fun buf => format buf rest more) pair
                    (rendered a) (format_text rest more)
                    (format_size rest more)); [|apply IH].
           rewrite (rendered_length_in_views a Ca).
           now apply contract_renders_in_views.
Qed.

(** When the text is of a length a [size_t] holds, the size returned is
    its length. *)
Lemma cat_size_is_length (args : list arg) :
  Forall view_contract args ->
  clen (cat_text args) <= size_max -> cat_size args = clen (cat_text args).
Proof.
  induction 1 as [|a more Ca _ IH]; [reflexivity|].
  cbn [cat_size cat_text map List.concat]. unfold clen in *.
  rewrite length_app, Nat2Z.inj_add. fold (clen (rendered a)).
  rewrite (rendered_length_in_views a Ca). intros Hmax.
  pose proof (required_nonneg_in_views a Ca).
  fold (cat_text more) in *.
  rewrite IH by lia. apply wrap_small. lia.
Qed.

Lemma catsep_more_size_is_length (sep : arg) (args : list arg) :
  view_contract sep -> Forall view_contract args ->
  clen (catsep_more_text sep args) <= size_max ->
  catsep_more_size sep args = clen (catsep_more_text sep args).
Proof.
  intros Cs. induction 1 as [|a more Ca _ IH]; [reflexivity|].
  cbn [catsep_more_size catsep_more_text map List.concat]. unfold clen in *.
  rewrite !length_app, !Nat2Z.inj_add.
  fold (clen (rendered a)) (clen (rendered sep)).
  rewrite (rendered_length_in_views a Ca), (rendered_length_in_views sep Cs).
  intros Hmax.
  pose proof (required_nonneg_in_views a Ca).
  pose proof (required_nonneg_in_views sep Cs).
  fold (catsep_more_text sep more) in *.
  rewrite IH by lia.
  rewrite (wrap_small (required sep + required a)) by lia.
  apply wrap_small. lia.
Qed.

Lemma catsep_size_is_length (sep a : arg) (more : list arg) :
  view_contract sep -> view_contract a -> Forall view_contract more ->
  clen (catsep_text sep a more) <= size_max ->
  catsep_size sep a more = clen (catsep_text sep a more).
Proof.
  intros Cs Ca Cm. unfold catsep_size, catsep_text, clen.
  rewrite length_app, Nat2Z.inj_add. fold (clen (rendered a)).
  fold (clen (catsep_more_text sep more)).
  rewrite (rendered_length_in_views a Ca). intros Hmax.
  pose proof (required_nonneg_in_views a Ca).
  assert (0 <= clen (catsep_more_text sep more)) by (unfold clen; lia).
  rewrite catsep_more_size_is_length by (auto; lia).
  apply wrap_small. lia.
Qed.

Lemma format_size_is_length (args : list arg) :
  Forall view_contract args ->
  forall fmt,
    clen (format_text fmt args) <= size_max ->
    format_size fmt args = clen (format_text fmt args).
Proof.
  induction 1 as [|a more Ca _ IH]; intros fmt; [reflexivity|].
  cbn [format_size format_text].
  destruct (find fmt placeholder =? npos); [reflexivity|].
  set (pre := csub_n fmt 0 (find fmt placeholder)).
  set (rest := csub fmt (wrap (find fmt placeholder + 2))).
  unfold clen at 1 3. rewrite !length_app, !Nat2Z.inj_add.
  fold (clen (rendered a)) (clen pre) (clen (format_text rest more)).
  rewrite (rendered_length_in_views a Ca). intros Hmax.
  pose proof (required_nonneg_in_views a Ca).
  assert (0 <= clen pre) by (unfold clen; lia).
  assert (0 <= clen (format_text rest more)) by (unfold clen; lia).
  rewrite IH by lia.
  rewrite (wrap_small (clen pre + required a)) by lia.
  rewrite wrap_small by lia. lia.
Qed.

Lemma renders_serializes (c : substr -> M Z) (x : Z) (t : list ascii) :
  renders_in_views c x t -> (clen t <= size_max -> x = clen t) ->
  serializes c x t.
Proof.
  intros R Hx. split.
  - intros buf m Hwf. destruct (R buf m Hwf) as (S & F & _). now split.
  - intros Hmax. specialize (Hx Hmax). subst x.
    assert (W : forall buf m,
               clen t <= len buf -> written (c buf) buf m = t).
    { intros buf m Hfit.
      assert (Hwf : well_formed buf) by (unfold well_formed, clen in *; lia).
      destruct (R buf m Hwf) as (S & _ & O). unfold written.
      destruct (c buf m) as [n m']. cbn [fst snd] in *. subst n.
      unfold clen at 1. rewrite Nat2Z.id. now apply O. }
    split; [reflexivity|]. split; [exact W|].
    intros buf buf' m m' Hlen Hlen'.
    rewrite (W buf m), (W buf' m') by lia. reflexivity.
Qed.

(** C1. For arguments whose [to_chars] overloads keep the sizing contract
    on the views a caller can form, the size [required] and the text
    [rendered] of each are what its overload returns and writes on every
    buffer, and each of [cat], [catsep] and [format], on every buffer of
    whatever length, 0 included: returns the required size of the whole,
    which is the sum of the sizes of the parts as the [size_t] additions
    give it; writes no character outside the buffer, so none at or past
    its length; and, the complete output being of a length a [size_t]
    holds, returns that length, leaves the complete output (the texts of
    the parts, in order) in every buffer of at least that length, and so
    leaves in a buffer of exactly that length what it leaves in any longer
    one. *)
Theorem serialize_exact_size (sep a : arg) (fmt : csubstr) (args : list arg) :
  view_contract sep -> view_contract a -> Forall view_contract args ->
  Forall reports (sep :: a :: args) /\
  serializes (fun buf => cat buf args) (cat_size args) (cat_text args) /\
  serializes (fun buf => catsep buf sep a args)
    (catsep_size sep a args) (catsep_text sep a args) /\
  serializes (fun buf => format buf fmt args)
    (format_size fmt args) (format_text fmt args).
Proof.
  intros Cs Ca Cargs. split; [|split; [|split]].
  - apply Forall_cons; [now apply contract_reports|].
    apply Forall_cons; [now apply contract_reports|].
    revert Cargs. apply Forall_impl. apply contract_reports.
  - apply renders_serializes.
    + now apply cat_renders_in_views.
    + now apply cat_size_is_length.
  - apply renders_serializes.
    + now apply catsep_renders_in_views.
    + now apply catsep_size_is_length.
  - apply renders_serializes.
    + now apply format_renders_in_views.
    + now apply format_size_is_length.
Qed.

(** The modelled overloads for text, characters and integers keep the
    contract. *)
Lemma csubstr_contract (v : csubstr) : sizing_contract (mk_arg v).
Proof.
  apply renders_contract with (t := v). apply renders_csubstr.
Qed.

Lemma str_arg_contract (s : string) : sizing_contract (str_arg s).
Proof.
  apply csubstr_contract.
Qed.

Lemma char_arg_contract (c : ascii) : sizing_contract (char_arg c).
Proof.
  apply renders_contract with (t := [c]). apply (renders_csubstr [c]).
Qed.

Lemma int_arg_contract (v : Z) : sizing_contract (int_arg v).
Proof.
  apply renders_contract with (t := itoa_text v).
  apply (renders_csubstr (itoa_text v)).
Qed.

(** The exact-size property of the three engines on a text, two integers and
    a character. *)
Lemma serialize_exact_size_witness :
  let sep := str_arg ", " in
  let a := int_arg (-3) in
  let args := [str_arg "ab"; int_arg 7; char_arg "!"] in
  Forall reports (sep :: a :: args) /\
  serializes (fun buf => cat buf args) (cat_size args) (cat_text args) /\
  serializes (fun buf => catsep buf sep a args)
    (catsep_size sep a args) (catsep_text sep a args) /\
  serializes (fun buf => format buf (cs "<{}|{}>") args)
    (format_size (cs "<{}|{}>") args) (format_text (cs "<{}|{}>") args).
Proof.
  cbv zeta.
  apply (serialize_exact_size (str_arg ", ") (int_arg (-3)) (cs "<{}|{}>")
           [str_arg "ab"; int_arg 7; char_arg "!"]).
  - apply contract_in_views, str_arg_contract.
  - apply contract_in_views, int_arg_contract.
  - apply Forall_cons; [apply contract_in_views, str_arg_contract|].
    apply Forall_cons; [apply contract_in_views, int_arg_contract|].
    apply Forall_cons; [apply contract_in_views, char_arg_contract|].
    apply Forall_nil.
Defined.

(** The engines at work on small buffers: the returned size is that of the
    whole text whether it fits or not, and a buffer of that size holds it. *)
Example cat_sizes :
  fst (cat (buffer 0) [str_arg "ab"; int_arg 7; char_arg "!"] blank) = 4 /\
  fst (cat (buffer 3) [str_arg "ab"; int_arg 7; char_arg "!"] blank) = 4 /\
  written (cat (buffer 4) [str_arg "ab"; int_arg 7; char_arg "!"])
    (buffer 4) blank = cs "ab7!" /\
  written (cat (buffer 9) [str_arg "ab"; int_arg 7; char_arg "!"])
    (buffer 9) blank = cs "ab7!".
Proof.
  repeat split; vm_compute; reflexivity.
Qed.

(** ** Separator placement *)

(** C8. [catsep] writes the first argument with nothing before it and the
    separator once before each later argument:
    catsep(buf, ",", "a", "b", "c") leaves "a,b,c" and returns 5; with one
    argument it does what writing that argument alone does; and, with no
    argument at all, the step [detail::catsep_more] returns 0 and writes
    nothing, as the resizing forms leave the container as it is. *)
Theorem catsep_separator_placement :
  (forall sep a more,
      sizing_contract sep -> sizing_contract a -> Forall sizing_contract more ->
      renders (fun buf => catsep buf sep a more) (catsep_size sep a more)
        (rendered a ++
         List.concat (map (fun x => rendered sep ++ rendered x) more))) /\
  (let c := catsep (buffer 16) (str_arg ",") (str_arg "a")
              [str_arg "b"; str_arg "c"] in
   fst (c blank) = 5 /\ written c (buffer 16) blank = cs "a,b,c") /\
  (forall buf sep a m,
      snd (catsep buf sep a [] m) = snd (write buf a m) /\
      fst (catsep buf sep a [] m) = wrap (fst (write buf a m))) /\
  (forall buf sep m, detail.catsep_more buf sep [] m = (0, m)) /\
  (forall fuel cont sep,
      catseprs fuel cont sep [] = Some (cont, 0%nat) /\
      catseprs_append fuel cont sep [] = Some (cont, [], 0%nat)).
Proof.
  split; [|split; [|split; [|split]]].
  - intros sep a more Cs Ca Cm. now apply catsep_renders.
  - cbv zeta. split; vm_compute; reflexivity.
  - intros buf sep a m. unfold catsep, bind, ret. cbn [detail.catsep_more].
    unfold ret. destruct (write buf a m) as [num m1]. cbn [fst snd].
    now rewrite Z.add_0_r.
  - reflexivity.
  - intros fuel cont sep. split; reflexivity.
Qed.

(** The placement of the separator between an integer, a character and an
    integer. *)
Lemma catsep_separator_placement_witness :
  renders
    (fun buf => catsep buf (str_arg ";") (int_arg 10) [char_arg "x"; int_arg 2])
    (catsep_size (str_arg ";") (int_arg 10) [char_arg "x"; int_arg 2])
    (cs "10;x;2").
Proof.
  apply (proj1 catsep_separator_placement
           (str_arg ";") (int_arg 10) [char_arg "x"; int_arg 2]).
  - apply str_arg_contract.
  - apply int_arg_contract.
  - apply Forall_cons; [apply char_arg_contract|].
    apply Forall_cons; [apply int_arg_contract|]. apply Forall_nil.
Defined.

(** ** boolalpha *)

(** C10. Whatever the type of the wrapped value, [fmt::boolalpha] keeps only
    its conversion to [bool], and [to_chars] of the wrapper writes what
    [to_chars] of the literal "true" or "false" writes: "true" exactly for
    the values that convert to [true], which for an integer of any width
    are the values other than 0. *)
Theorem boolalpha_true_or_false :
  (forall (T : Type) (C : fmt.ToBool T) (v : T) (strict : bool)
          (buf : substr) (m : mem),
      fmt.val (fmt.boolalpha v strict) = fmt.to_bool v /\
      to_chars buf (fmt.boolalpha v strict) m =
      to_chars buf (cs (if fmt.to_bool v then "true" else "false")) m) /\
  (forall (T : Type) (C : fmt.ToBool T) (v : T) (strict : bool),
      renders (fun buf => to_chars buf (fmt.boolalpha v strict))
        (if fmt.to_bool v then 4 else 5)
        (cs (if fmt.to_bool v then "true" else "false"))) /\
  (forall (v : Z) (strict : bool) (buf : substr) (m : mem),
      to_chars buf (fmt.boolalpha v strict) m =
      to_chars buf (cs (if v =? 0 then "false" else "true")) m).
Proof.
  split; [|split].
  - intros T C v strict buf m. unfold fmt.boolalpha.
    destruct (fmt.to_bool v) eqn:E; cbn; rewrite ?E; split; reflexivity.
  - intros T C v strict. unfold fmt.boolalpha.
    destruct (fmt.to_bool v) eqn:E.
    + apply (renders_csubstr (cs "true")).
    + apply (renders_csubstr (cs "false")).
  - intros v strict buf m. unfold fmt.boolalpha, fmt.to_bool, fmt.to_bool_integer.
    destruct (v =? 0); reflexivity.
Qed.

(** A negative integer is written as "true", zero as "false". *)
Lemma boolalpha_true_or_false_witness :
  written (to_chars (buffer 8) (fmt.boolalpha (-4096) false)) (buffer 8) blank
    = cs "true" /\
  written (to_chars (buffer 8) (fmt.boolalpha 0 true)) (buffer 8) blank
    = cs "false".
Proof.
  unfold written.
  rewrite !(proj2 (proj2 boolalpha_true_or_false)).
  split; vm_compute; reflexivity.
Defined.

(** ** The alignment of a raw wrapper *)

Lemma land_even_odd (a b : Z) : Z.land (2 * a) (2 * b + 1) = 2 * Z.land a b.
Proof.
  apply Z.bits_inj'. intros n Hn. rewrite Z.land_spec.
  destruct (Z.eq_dec n 0) as [->|Hne].
  - now rewrite !Z.testbit_even_0.
  - replace n with (Z.succ (n - 1)) by lia.
    rewrite !Z.testbit_even_succ, Z.testbit_odd_succ by lia.
    now rewrite Z.land_spec.
Qed.

Lemma land_odd_even (a b : Z) : Z.land (2 * a + 1) (2 * b) = 2 * Z.land a b.
Proof.
  rewrite Z.land_comm, land_even_odd. now rewrite Z.land_comm.
Qed.

Lemma pow2_even (k : Z) : 0 < k -> 2 ^ k = 2 * 2 ^ (k - 1).
Proof.
  intros H. rewrite <- Z.pow_succ_r by lia. f_equal. lia.
Qed.

(** The bit test of the assertion holds of a positive number exactly when
    the number is a power of two. *)
Lemma land_pred_pow2 (p : positive) :
  Z.land (Z.pos p) (Z.pos p - 1) = 0 <-> exists k, 0 <= k /\ Z.pos p = 2 ^ k.
Proof.
  induction p as [q IH|q IH|].
  - replace (Z.pos q~1 - 1) with (2 * Z.pos q) by lia.
    replace (Z.pos q~1) with (2 * Z.pos q + 1) by lia.
    rewrite land_odd_even, Z.land_diag. split; [lia|].
    intros (k & Hk & E). destruct (Z.eq_dec k 0) as [->|Hne].
    + cbn in E. lia.
    + rewrite pow2_even in E by lia. lia.
  - replace (Z.pos q~0 - 1) with (2 * (Z.pos q - 1) + 1) by lia.
    replace (Z.pos q~0) with (2 * Z.pos q) by lia.
    rewrite land_even_odd. split.
    + intros H. assert (H' : Z.land (Z.pos q) (Z.pos q - 1) = 0) by lia.
      apply IH in H'. destruct H' as (k & Hk & E).
      exists (k + 1). split; [lia|]. rewrite Z.pow_add_r by lia. lia.
    + intros (k & Hk & E). destruct (Z.eq_dec k 0) as [->|Hne].
      * cbn in E. lia.
      * rewrite pow2_even in E by lia.
        assert (H' : exists k', 0 <= k' /\ Z.pos q = 2 ^ k')
          by (exists (k - 1); split; lia).
        apply IH in H'. lia.
  - split; [|reflexivity]. intros _. exists 0. split; [lia | reflexivity].
Qed.

Lemma alignment_test_pow2 (a : Z) :
  0 <= a <= size_max ->
  (a >? 0) && (Z.land a (wrap (a - 1)) =? 0) = true <->
  exists k, 0 <= k < size_bits /\ a = 2 ^ k.
Proof.
  intros Ha. rewrite andb_true_iff, Z.gtb_lt, Z.eqb_eq. split.
  - intros (Hpos & Hland). rewrite wrap_small in Hland by lia.
    destruct a as [|p|p]; try lia.
    apply land_pred_pow2 in Hland. destruct Hland as (k & Hk & E).
    exists k. split; [|exact E]. split; [lia|].
    apply (Z.pow_lt_mono_r_iff 2); [lia | unfold size_bits; lia |].
    unfold size_max in Ha. lia.
  - intros (k & Hk & E).
    assert (Hpos : 0 < a) by (subst a; apply Z.pow_pos_nonneg; lia).
    split; [exact Hpos|]. rewrite wrap_small by lia.
    destruct a as [|p|p]; try lia.
    apply land_pred_pow2. exists k. split; [lia | exact E].
Qed.

(** C9. A [raw_wrapper_] is constructed, through the constructor or through
    [fmt::raw] and [fmt::craw], past the assertion only with an alignment
    that is a power of two, 2^k with k < 64, hence not 0; alignment 3 fails
    the assertion.  The constructor is a function of the region descriptor
    and of the alignment alone: it has no access to the storage. *)
Theorem raw_wrapper_alignment_pow2 :
  (forall data a,
      0 <= a <= size_max ->
      (passed (fmt.raw_wrapper_ctor data a) = true <->
       exists k, 0 <= k < size_bits /\ a = 2 ^ k)) /\
  (forall data a w,
      0 <= a <= size_max ->
      fmt.raw data a = Passed w \/ fmt.craw data a = Passed w ->
      fmt.raw_data w = data /\
      exists k, 0 <= k < size_bits /\ fmt.alignment w = 2 ^ k) /\
  (forall data,
      passed (fmt.raw data 3) = false /\ passed (fmt.craw data 3) = false /\
      passed (fmt.raw data 0) = false).
Proof.
  split; [|split].
  - intros data a Ha. rewrite <- (alignment_test_pow2 a Ha).
    unfold fmt.raw_wrapper_ctor, C4_ASSERT_MSG.
    destruct ((a >? 0) && (Z.land a (wrap (a - 1)) =? 0)); cbn; intuition congruence.
  - intros data a w Ha H.
    assert (E : fmt.raw_wrapper_ctor data a = Passed w) by (destruct H; exact H).
    unfold fmt.raw_wrapper_ctor, C4_ASSERT_MSG in E.
    destruct ((a >? 0) && (Z.land a (wrap (a - 1)) =? 0)) eqn:T; [|discriminate].
    injection E as <-. cbn. split; [reflexivity|].
    now apply alignment_test_pow2.
  - intros data. repeat split.
Qed.

(** Alignment 8 passes the assertion of the constructor. *)
Lemma raw_wrapper_alignment_pow2_witness :
  (passed (fmt.raw_wrapper_ctor (fmt.mk_blob 4096 24) 8) = true <->
   exists k, 0 <= k < size_bits /\ 8 = 2 ^ k) /\
  passed (fmt.raw_wrapper_ctor (fmt.mk_blob 4096 24) 8) = true.
Proof.
  split.
  - apply (proj1 raw_wrapper_alignment_pow2 (fmt.mk_blob 4096 24) 8).
    unfold size_max, size_bits. lia.
  - reflexivity.
Defined.

(** ** The checking shapes *)

Lemma check_size (sz : Z) (buf : substr) :
  C4_CHECK (sz <=? len buf) "sz <= buf.len"
    (mk_substr (str buf) (if sz <=? len buf then sz else len buf)) =
  if sz <=? len buf then Passed (mk_substr (str buf) sz)
  else Failed "sz <= buf.len" (mk_substr (str buf) (len buf)).
Proof.
  unfold C4_CHECK. now destruct (sz <=? len buf).
Qed.

(** C5, as the code has it.  [cat], [catsep] and [format] have one outcome,
    the required size, the same for every buffer.  The shapes [cat_sub],
    [catsep_sub] and [format_sub] write what these write and then check
    that size against the buffer: when it is at most the buffer's length
    they return the view of that many characters of the buffer, and when it
    is larger the check [sz <= buf.len] fails (the view of the whole buffer
    being what is returned if the error handler comes back). *)
Theorem sub_shapes_check_required_size (sep a : arg) (fmt : csubstr)
    (args : list arg) (buf : substr) (m : mem) :
  sizing_contract sep -> sizing_contract a -> Forall sizing_contract args ->
  (fst (cat buf args m) = cat_size args /\
   cat_sub buf args m =
   (if cat_size args <=? len buf
    then Passed (mk_substr (str buf) (cat_size args))
    else Failed "sz <= buf.len" (mk_substr (str buf) (len buf)),
    snd (cat buf args m))) /\
  (fst (catsep buf sep a args m) = catsep_size sep a args /\
   catsep_sub buf sep a args m =
   (if catsep_size sep a args <=? len buf
    then Passed (mk_substr (str buf) (catsep_size sep a args))
    else Failed "sz <= buf.len" (mk_substr (str buf) (len buf)),
    snd (catsep buf sep a args m))) /\
  (fst (format buf fmt args m) = format_size fmt args /\
   format_sub buf fmt args m =
   (if format_size fmt args <=? len buf
    then Passed (mk_substr (str buf) (format_size fmt args))
    else Failed "sz <= buf.len" (mk_substr (str buf) (len buf)),
    snd (format buf fmt args m))).
Proof.
  intros Cs Ca Cargs.
  pose proof (proj1 (cat_renders args Cargs buf m)) as E1.
  pose proof (proj1 (catsep_renders sep a args Cs Ca Cargs buf m)) as E2.
  pose proof (proj1 (format_renders args Cargs fmt buf m)) as E3.
  cbv beta in E1, E2, E3.
  unfold cat_sub, catsep_sub, format_sub, bind, ret.
  destruct (cat buf args m) as [sz1 m1].
  destruct (catsep buf sep a args m) as [sz2 m2].
  destruct (format buf fmt args m) as [sz3 m3].
  cbn [fst snd] in *. subst sz1 sz2 sz3.
  rewrite !check_size. repeat split.
Qed.

(** On a buffer of 8 characters [cat_sub] returns the view of the 3
    characters written. *)
Lemma sub_shapes_check_required_size_witness :
  cat_sub (buffer 8) [str_arg "ab"; int_arg 7] blank =
  (Passed (mk_substr 0 3), snd (cat (buffer 8) [str_arg "ab"; int_arg 7] blank)).
Proof.
  exact (proj2 (proj1 (sub_shapes_check_required_size
                         (str_arg ",") (str_arg "x") (cs "{}")
                         [str_arg "ab"; int_arg 7] (buffer 8) blank
                         (str_arg_contract ",") (str_arg_contract "x")
                         (Forall_cons _ (str_arg_contract "ab")
                            (Forall_cons _ (int_arg_contract 7)
                               (Forall_nil _)))))).
Defined.

(** C5 as stated fails: on a buffer that is too small the three shapes do
    not pass their check. *)
Lemma sub_shapes_fail_on_small_buffer :
  fst (cat_sub (buffer 2) [str_arg "ab"; int_arg 7] blank)
    = Failed "sz <= buf.len" (mk_substr 0 2) /\
  fst (catsep_sub (buffer 0) (str_arg ",") (str_arg "a") [str_arg "b"] blank)
    = Failed "sz <= buf.len" (mk_substr 0 0) /\
  fst (format_sub (buffer 3) (cs "x={}") [int_arg 12] blank)
    = Failed "sz <= buf.len" (mk_substr 0 3) /\
  ~ (forall buf args m, passed (fst (cat_sub buf args m)) = true).
Proof.
  split; [vm_compute; reflexivity|].
  split; [vm_compute; reflexivity|].
  split; [vm_compute; reflexivity|].
  intros H. specialize (H (buffer 2) [str_arg "ab"; int_arg 7] blank).
  vm_compute in H. discriminate.
Qed.

(** ** Short circuit on a failed sub-parse *)






(** The premise of the short circuit is a returned [npos].  The overload of
    [from_chars_first] for raw wrappers returns 0 or 1, whatever [from_chars]
    does, and so never meets it. *)
Remark from_chars_first_raw_not_npos
    (from_chars_raw : csubstr -> fmt.raw_wrapper_ -> bool)
    (buf : csubstr) (r : fmt.raw_wrapper_) :
  from_chars_first_raw from_chars_raw buf r <> npos.
Proof.
  unfold from_chars_first_raw. now destruct (from_chars_raw buf r).
Qed.

(** ** Templates on the reading side *)

Lemma find_from_same_shape (pat : list ascii) :
  forall s s' i,
    List.length s = List.length s' ->
    (forall j : nat, starts_with pat (skipn j s) = starts_with pat (skipn j s')) ->
    find_from pat s i = find_from pat s' i.
Proof.
  induction s as [|c s IH]; intros [|c' s'] i Hlen Hat; try discriminate.
  - reflexivity.
  - cbn [find_from]. pose proof (Hat 0%nat) as H0. cbn [skipn] in H0.
    rewrite H0. destruct (starts_with pat (c' :: s')); [reflexivity|].
    apply IH; [now injection Hlen|]. intros j. apply (Hat (S j)).
Qed.

Lemma same_shape_find (fmt fmt' : csubstr) :
  same_shape fmt fmt' -> find fmt placeholder = find fmt' placeholder.
Proof.
  intros (Hlen & Hat). now apply find_from_same_shape.
Qed.

Lemma same_shape_csub (fmt fmt' : csubstr) (k : Z) :
  same_shape fmt fmt' -> same_shape (csub fmt k) (csub fmt' k).
Proof.
  intros (Hlen & Hat). unfold csub. split.
  - now rewrite !length_skipn, Hlen.
  - intros i. rewrite !skipn_skipn. apply Hat.
Qed.

Lemma unformat_same_shape (args : list ref) :
  forall buf fmt fmt',
    same_shape fmt fmt' -> unformat buf fmt args = unformat buf fmt' args.
Proof.
  induction args as [|a more IH]; intros buf fmt fmt' Hs; [reflexivity|].
  cbn [unformat]. rewrite <- (same_shape_find fmt fmt' Hs).
  destruct (find fmt placeholder =? npos); [reflexivity|].
  destruct (read _ a) as [num a']. destruct (num =? npos); [reflexivity|].
  now rewrite (IH _ _ (csub fmt' (wrap (find fmt placeholder + 2)))
                 (same_shape_csub _ _ _ Hs)).
Qed.

Lemma unformat_no_placeholder (buf fmt : csubstr) (args : list ref) :
  find fmt placeholder = npos -> unformat buf fmt args = (0, args).
Proof.
  intros H. destruct args as [|a more]; [reflexivity|].
  cbn [unformat]. now rewrite H, Z.eqb_refl.
Qed.

(** C7, as the code has it.  [unformat] never compares the text of the
    template with the input: templates of the same shape read the same from
    every input.  The text before a placeholder is skipped in the input,
    as many characters as it has, and these count in the returned size; the
    text after the last placeholder used takes nothing. *)
Theorem unformat_skips_literal_spans :
  (forall buf fmt fmt' args,
      same_shape fmt fmt' -> unformat buf fmt args = unformat buf fmt' args) /\
  (forall buf fmt a more,
      find fmt placeholder <> npos ->
      let pos := find fmt placeholder in
      let buf1 := cadvance buf pos in
      unformat buf fmt (a :: more) =
      let '(num, a') := read buf1 a in
      if num =? npos then (npos, a' :: more) else
      let '(num', more') :=
        unformat (cadvance buf1 num) (csub fmt (wrap (pos + 2))) more in
      if num' =? npos then (npos, a' :: more')
      else (wrap (wrap (pos + num) + num'), a' :: more')) /\
  (forall buf fmt args,
      find fmt placeholder = npos -> unformat buf fmt args = (0, args)) /\
  unformat (cs "xy12!") (cs "ab{}cd") [int_ref 0] = (4, [int_ref 12]).
Proof.
  split; [|split; [|split]].
  - intros buf fmt fmt' args. apply unformat_same_shape.
  - intros buf fmt a more Hpos. cbv zeta. cbn [unformat].
    apply Z.eqb_neq in Hpos. rewrite Hpos. reflexivity.
  - apply unformat_no_placeholder.
  - vm_compute. reflexivity.
Qed.

(** Two templates of one shape read the same; a template without
    placeholder reads nothing. *)
Lemma unformat_skips_literal_spans_witness :
  unformat (cs "xy12,zz7") (cs "ab{},cd{}") [int_ref 0; int_ref 0] =
  unformat (cs "xy12,zz7") (cs "AB{}-xy{}") [int_ref 0; int_ref 0] /\
  unformat (cs "12") (cs "no placeholder") [int_ref 5] = (0, [int_ref 5]).
Proof.
  split.
  - apply (proj1 unformat_skips_literal_spans).
    split; [reflexivity|].
    intros i. do 10 (destruct i as [|i]; [reflexivity|]).
    rewrite !skipn_all2 by (cbn; lia). reflexivity.
  - apply (proj1 (proj2 (proj2 unformat_skips_literal_spans))).
    vm_compute. reflexivity.
Defined.

(** C7 as stated fails: the text before a placeholder does take characters
    from the input.  With the template "ab{}" the argument is read two
    characters into the input, and the returned size counts them. *)
Lemma literal_spans_consume_input :
  unformat (cs "12") (cs "{}") [int_ref 0] = (2, [int_ref 12]) /\
  unformat (cs "12") (cs "ab{}") [int_ref 0] = (npos, [int_ref 0]) /\
  unformat (cs "ab12") (cs "ab{}") [int_ref 0] = (4, [int_ref 12]) /\
  ~ literal_spans_consume_no_input.
Proof.
  split; [vm_compute; reflexivity|].
  split; [vm_compute; reflexivity|].
  split; [vm_compute; reflexivity|].
  intros H. specialize (H (cs "12") (cs "ab") (int_ref 0) eq_refl).
  vm_compute in H. discriminate.
Qed.

(** ** Resizing and retrying *)

Lemma firstn_load (m : mem) (k n : nat) :
  (k <= n)%nat -> forall p, firstn k (load m p n) = load m p k.
Proof.
  revert n. induction k as [|k IH]; intros [|n] Hk p; try lia; try reflexivity.
  cbn [load firstn]. f_equal. apply IH. lia.
Qed.

Section Retry.

(** An engine that renders the text [t], as [cat], [catsep] and [format]
    do for arguments that keep the contract. *)
Variable engine : substr -> M Z.
Variable t : list ascii.
Hypothesis engine_renders : renders engine (clen t) t.

(** One pass on a container that can hold the text leaves the text. *)
Lemma pass_when_it_fits (cont : container) :
  clen t <= clen cont ->
  let '(r, cont') := on_storage cont (engine (to_substr cont)) in
  r = clen t /\ resize cont' r = t.
Proof.
  intros Hfit. unfold on_storage.
  destruct (engine_renders (to_substr cont) (storage cont)) as (S & _ & O).
  destruct (engine (to_substr cont) (storage cont)) as [r m'].
  cbn [fst snd to_substr str len] in *. subst r. split; [reflexivity|].
  unfold resize, clen in *. rewrite Nat2Z.id, load_length.
  replace (List.length t - List.length cont)%nat with 0%nat by lia.
  cbn [repeat]. rewrite app_nil_r, firstn_load by lia. now apply O.
Qed.

(** One pass on a container that is too short leaves a container of the
    size of the text. *)
Lemma pass_when_too_short (cont : container) :
  clen cont < clen t ->
  let '(r, cont') := on_storage cont (engine (to_substr cont)) in
  r = clen t /\ clen (resize cont' r) = clen t.
Proof.
  intros Hshort. unfold on_storage.
  destruct (engine_renders (to_substr cont) (storage cont)) as (S & _ & _).
  destruct (engine (to_substr cont) (storage cont)) as [r m'].
  cbn [fst] in S. subst r. split; [reflexivity|].
  unfold resize, clen in *.
  rewrite Nat2Z.id, length_app, length_firstn, repeat_length, load_length.
  lia.
Qed.

(** The loop ends after one pass, or after two on a container that was
    too short, and leaves the text. *)
Lemma retry_overwrite_two_passes (cont : container) (fuel : nat) :
  (2 <= fuel)%nat ->
  retry_overwrite engine fuel cont =
  Some (t, if clen cont <? clen t then 2%nat else 1%nat).
Proof.
  intros Hfuel. destruct fuel as [|[|fuel]]; try lia.
  cbn [retry_overwrite].
  destruct (Z.ltb_spec (clen cont) (clen t)) as [Hshort|Hfit].
  - pose proof (pass_when_too_short cont Hshort) as P1.
    destruct (on_storage cont (engine (to_substr cont))) as [r cont1].
    destruct P1 as (-> & Hsize). cbn [to_substr len].
    destruct (Z.gtb_spec (clen t) (clen cont)); [|lia].
    pose proof (pass_when_it_fits (resize cont1 (clen t))) as P2.
    destruct (on_storage (resize cont1 (clen t)) _) as [r2 cont2].
    destruct P2 as (-> & ->); [lia|].
    rewrite Hsize.
    destruct (Z.gtb_spec (clen t) (clen t)); [lia | reflexivity].
  - pose proof (pass_when_it_fits cont Hfit) as P1.
    destruct (on_storage cont (engine (to_substr cont))) as [r cont1].
    destruct P1 as (-> & ->). cbn [to_substr len].
    destruct (Z.gtb_spec (clen t) (clen cont)); [lia | reflexivity].
Qed.

End Retry.

Lemma resize_length (cont : container) (n : Z) :
  0 <= n -> clen (resize cont n) = n.
Proof.
  intros Hn. unfold resize, clen.
  rewrite length_app, length_firstn, repeat_length. lia.
Qed.

(** Whatever the engine writes, a size that does not depend on the buffer
    ends the retries after the second pass. *)
Lemma retry_overwrite_terminates (engine : substr -> M Z) (R : Z)
    (cont : container) (fuel : nat) :
  (forall buf m, fst (engine buf m) = R) -> 0 <= R ->
  (2 <= fuel)%nat ->
  exists result,
    retry_overwrite engine fuel cont =
    Some (result, if clen cont <? R then 2%nat else 1%nat) /\
    clen result = R.
Proof.
  intros HR Hpos Hfuel. destruct fuel as [|[|fuel]]; try lia.
  cbn [retry_overwrite]. unfold on_storage.
  pose proof (HR (to_substr cont) (storage cont)) as E1.
  destruct (engine (to_substr cont) (storage cont)) as [r m1].
  cbn [fst] in E1. subst r. cbn [to_substr len].
  destruct (Z.ltb_spec (clen cont) R) as [Hshort|Hfit].
  - destruct (Z.gtb_spec R (clen cont)); [|lia].
    set (cont1 := resize (load m1 0 (List.length cont)) R).
    pose proof (HR (to_substr cont1) (storage cont1)) as E2.
    destruct (engine (to_substr cont1) (storage cont1)) as [r m2].
    cbn [fst] in E2. subst r.
    assert (E : clen cont1 = R) by now apply resize_length.
    rewrite E. destruct (Z.gtb_spec R R); [lia|].
    eexists. split; [reflexivity | now apply resize_length].
  - destruct (Z.gtb_spec R (clen cont)); [lia|].
    eexists. split; [reflexivity | now apply resize_length].
Qed.

Lemma cat_size_nonneg (args : list arg) : 0 <= cat_size args.
Proof.
  destruct args as [|a more]; cbn [cat_size]; [lia | apply wrap_range].
Qed.

(** C4. For arguments that keep the sizing contract, [catrs] returns within
    two passes: it calls [cat] once when the container already has at least
    the required size R, and twice, never more, when the container is
    smaller than R.  On return the container has size R, and, the output
    being of a length a [size_t] holds, it contains what [cat] leaves in a
    fixed buffer of length at least R. *)
Theorem catrs_two_passes (cont : container) (args : list arg) (fuel : nat) :
  Forall sizing_contract args ->
  (2 <= fuel)%nat ->
  let R := cat_size args in
  exists (result : container) (calls : nat),
    catrs fuel cont args = Some (result, calls) /\
    calls = (if clen cont <? R then 2%nat else 1%nat) /\
    clen result = R /\
    (clen (cat_text args) <= size_max ->
     forall buf m,
       R <= len buf ->
       fst (cat buf args m) = R /\
       result = load (snd (cat buf args m)) (str buf) (Z.to_nat R)).
Proof.
  intros Cargs Hfuel R. subst R.
  pose proof (cat_renders args Cargs) as Rn.
  destruct (retry_overwrite_terminates (fun buf => cat buf args)
              (cat_size args) cont fuel) as (result & Hrun & Hsize);
    [intros buf m; apply Rn | apply cat_size_nonneg | exact Hfuel |].
  exists result, (if clen cont <? cat_size args then 2%nat else 1%nat).
  split; [exact Hrun|]. split; [reflexivity|]. split; [exact Hsize|].
  intros Hmax buf m Hlen.
  rewrite (cat_size_total args Cargs Hmax) in *.
  pose proof (retry_overwrite_two_passes (fun buf => cat buf args)
                (cat_text args) Rn cont fuel Hfuel) as Htext.
  rewrite Hrun in Htext. injection Htext as ->.
  destruct (Rn buf m) as (S & _ & O). cbv beta in S, O.
  split; [exact S|].
  unfold clen at 1. rewrite Nat2Z.id. symmetry. apply O. lia.
Qed.

(** A container of one character takes two passes to hold "ab7!". *)
Lemma catrs_two_passes_witness :
  exists (result : container) (calls : nat),
    catrs 5 (cs "x") [str_arg "ab"; int_arg 7; char_arg "!"]
      = Some (result, calls) /\
    calls = 2%nat /\
    clen result = 4 /\
    (4 <= size_max ->
     forall buf m,
       4 <= len buf ->
       fst (cat buf [str_arg "ab"; int_arg 7; char_arg "!"] m) = 4 /\
       result =
       load (snd (cat buf [str_arg "ab"; int_arg 7; char_arg "!"] m))
         (str buf) 4).
Proof.
  apply (catrs_two_passes (cs "x") [str_arg "ab"; int_arg 7; char_arg "!"] 5).
  - apply Forall_cons; [apply str_arg_contract|].
    apply Forall_cons; [apply int_arg_contract|].
    apply Forall_cons; [apply char_arg_contract|]. apply Forall_nil.
  - lia.
Defined.

(** [catrs] at work: an empty container takes two passes, a container of
    the right size one; more fuel changes nothing, less than two passes do
    not do for a container that is too short. *)
Example catrs_runs :
  catrs 2 [] [str_arg "ab"; int_arg 7] = Some (cs "ab7", 2%nat) /\
  catrs 9 (cs "xyz") [str_arg "ab"; int_arg 7] = Some (cs "ab7", 1%nat) /\
  catrs 9 (cs "wxyz") [str_arg "ab"; int_arg 7] = Some (cs "ab7", 1%nat) /\
  catrs 1 [] [str_arg "ab"; int_arg 7] = None.
Proof.
  split; [vm_compute; reflexivity|].
  split; [vm_compute; reflexivity|].
  split; vm_compute; reflexivity.
Qed.

(** The other resizing forms at work. *)
Example resizing_forms_run :
  catrs_append 2 (cs "xy") [str_arg "ab"; int_arg 7]
    = Some (cs "xyab7", cs "ab7", 2%nat) /\
  catseprs 2 [] (str_arg ",") [str_arg "a"; str_arg "b"]
    = Some (cs "a,b", 2%nat) /\
  catseprs_append 2 (cs "k=") (char_arg "/") [int_arg 1; int_arg 2]
    = Some (cs "k=1/2", cs "1/2", 2%nat) /\
  formatrs 2 (cs "0123456789") (cs "{}-{}") [int_arg 1; int_arg 2]
    = Some (cs "1-2", 1%nat) /\
  formatrs_append 2 (cs "v") (cs "{}.{}") [int_arg 1; int_arg 2]
    = Some (cs "v1.2", cs "1.2", 2%nat).
Proof.
  split; [vm_compute; reflexivity|].
  split; [vm_compute; reflexivity|].
  split; [vm_compute; reflexivity|].
  split; vm_compute; reflexivity.
Qed.

(** ** Round trips *)

Lemma read_variable (buf : csubstr) (v : value) (init : value_type v) :
  read buf (variable v init) =
  let '(n, x) := @from_chars_first _ (value_from_chars v) buf init in
  (n, variable v x).
Proof.
  reflexivity.
Qed.

Lemma uncat_reads_back (vs : list value) :
  forall rs,
    Forall (fun v => sizing_contract (as_arg v)) vs ->
    reads_back vs ->
    Forall2 fresh_for vs rs ->
    clen (cat_text (map as_arg vs)) < npos ->
    uncat (cat_text (map as_arg vs)) rs =
    (clen (cat_text (map as_arg vs)), map holding vs).
Proof.
  induction vs as [|v more IH]; intros rs Cs Hrb Hfresh Hmax;
    inversion Hfresh as [|v' r more' rs' (init & ->) Hfresh']; subst.
  - reflexivity.
  - inversion Cs as [|v' more' Cv Cmore]; subst.
    destruct Hrb as (Hv & Hmore).
    cbn [uncat]. rewrite read_variable, (Hv init).
    change (map as_arg (v :: more)) with (as_arg v :: map as_arg more) in *.
    change (cat_text (as_arg v :: map as_arg more))
      with (rendered (as_arg v) ++ cat_text (map as_arg more)) in *.
    pose proof (rendered_length (as_arg v) Cv) as Ev.
    pose proof (required_nonneg (as_arg v) Cv) as Hv0.
    unfold clen in Hmax, Ev. rewrite length_app, Nat2Z.inj_add in Hmax.
    set (rest := cat_text (map as_arg more)) in *.
    destruct (Z.eqb_spec (required (as_arg v)) npos) as [En|_]; [lia|].
    assert (Eadv : cadvance (rendered (as_arg v) ++ rest) (required (as_arg v))
                   = rest).
    { unfold cadvance, csub, clen. rewrite length_app, Nat2Z.inj_add.
      destruct (Z.geb_spec
                  (Z.of_nat (List.length (rendered (as_arg v))) +
                   Z.of_nat (List.length rest)) (required (as_arg v))); [|lia].
      rewrite <- Ev, Nat2Z.id, skipn_app, skipn_all, Nat.sub_diag.
      reflexivity. }
    rewrite Eadv, (IH rs' Cmore Hmore Hfresh') by (unfold clen; lia).
    destruct (Z.eqb_spec (clen rest) npos) as [En|_]; [unfold clen in En; lia|].
    unfold clen. rewrite length_app, Nat2Z.inj_add, Ev.
    rewrite wrap_small by (unfold npos in Hmax; unfold clen; lia).
    reflexivity.
Qed.

(** C2, as the code has it.  For values whose [to_chars] overloads keep the
    sizing contract, whose complete text is shorter than [npos], and each of
    which [from_chars_first] reads back from its text followed by the text
    of the values after it, consuming its text and no more: [uncat], on
    what [cat] wrote into a buffer that holds it, returns the size [cat]
    returned and leaves each variable holding its value. *)
Theorem cat_uncat_round_trip (vs : list value) (rs : list ref)
    (buf : substr) (m : mem) :
  Forall (fun v => sizing_contract (as_arg v)) vs ->
  reads_back vs ->
  Forall2 fresh_for vs rs ->
  clen (cat_text (map as_arg vs)) < npos ->
  let c := cat buf (map as_arg vs) in
  fst (c m) <= len buf ->
  fst (c m) <> npos /\
  uncat (written c buf m) rs = (fst (c m), map holding vs).
Proof.
  intros Cs Hrb Hfresh Hmax c Hfit. subst c.
  assert (Cargs : Forall sizing_contract (map as_arg vs))
    by (rewrite Forall_map; exact Cs).
  pose proof (cat_renders _ Cargs buf m) as (S & _ & O). cbv beta in S, O.
  rewrite (cat_size_total _ Cargs) in S by (unfold npos in Hmax; lia).
  unfold written. destruct (cat buf (map as_arg vs) m) as [R m'].
  cbn [fst snd] in *. subst R. split; [lia|].
  unfold clen at 1. rewrite Nat2Z.id, O by lia.
  now apply uncat_reads_back.
Qed.

(** The modelled overloads for integers and for characters are round-trip
    consistent. *)
Lemma string_of_uint_digits (d : Decimal.uint) :
  Forall (fun c => is_digit c = true)
    (list_ascii_of_string (NilEmpty.string_of_uint d)).
Proof.
  induction d; cbn [NilEmpty.string_of_uint list_ascii_of_string];
    constructor; auto.
Qed.

Lemma digit_span_all (s : list ascii) :
  Forall (fun c => is_digit c = true) s -> digit_span s = s.
Proof.
  induction 1 as [|c s Hc _ IH]; [reflexivity|].
  cbn [digit_span]. now rewrite Hc, IH.
Qed.

Lemma utoa_text_digits (n : N) : digit_span (utoa_text n) = utoa_text n.
Proof.
  apply digit_span_all, string_of_uint_digits.
Qed.

Lemma utoa_text_head (n : N) :
  exists c s, utoa_text n = c :: s /\ is_digit c = true.
Proof.
  unfold utoa_text. pose proof (string_of_uint_digits (N.to_uint n)) as D.
  destruct (N.to_uint n) eqn:E;
    cbn [NilEmpty.string_of_uint list_ascii_of_string] in *;
    try (inversion D; subst; eauto).
  exfalso. destruct n as [|p]; [discriminate|].
  now apply (DecimalPos.Unsigned.to_uint_nonnil p).
Qed.

Lemma atou_utoa_text (n : N) : atou (utoa_text n) = Some n.
Proof.
  unfold atou, utoa_text.
  now rewrite string_of_list_ascii_of_string, NilEmpty.usu,
    DecimalN.Unsigned.of_to.
Qed.

Lemma read_digits (n : N) (neg : bool) (init : Z) :
  match digit_span (utoa_text n) with
  | [] => (npos, init)
  | a :: l =>
      match atou (a :: l) with
      | Some k =>
          (clen (digit_span (utoa_text n)) + (if neg then 1 else 0),
           if neg then - Z.of_N k else Z.of_N k)
      | None => (npos, init)
      end
  end =
  (clen (utoa_text n) + (if neg then 1 else 0),
   if neg then - Z.of_N n else Z.of_N n).
Proof.
  rewrite utoa_text_digits.
  destruct (utoa_text_head n) as (c & s & E & _).
  pose proof (atou_utoa_text n) as A. rewrite E in *. now rewrite A.
Qed.

Lemma from_chars_first_itoa_text (x init : Z) :
  from_chars_first (itoa_text x) init = (clen (itoa_text x), x).
Proof.
  unfold from_chars_first, from_chars_first_int, itoa_text.
  destruct (Z.ltb_spec x 0) as [Hneg|Hpos].
  - rewrite Ascii.eqb_refl. rewrite (read_digits (Z.to_N (- x)) true init).
    unfold clen. cbn [List.length]. f_equal; lia.
  - destruct (utoa_text_head (Z.to_N x)) as (c & s & E & Hc).
    assert (Hminus : Ascii.eqb c "-" = false).
    { destruct (Ascii.eqb_spec c "-"%char) as [->|]; [discriminate | reflexivity]. }
    rewrite E, Hminus, <- E. rewrite (read_digits (Z.to_N x) false init).
    f_equal; lia.
Qed.

Lemma written_csubstr (t : csubstr) (buf : substr) (m : mem) :
  clen t <= len buf -> written (to_chars buf t) buf m = t.
Proof.
  intros Hfit. destruct (renders_csubstr t buf m) as (S & _ & O).
  cbv beta in S, O. unfold written.
  destruct (to_chars buf t m) as [n m']. cbn [fst snd] in *. subst n.
  unfold clen at 1. rewrite Nat2Z.id. now apply O.
Qed.

Lemma int_round_trip (v : Z) : round_trip_consistent (int_value v).
Proof.
  intros x init buf m c Hfit.
  change (fst (c m)) with (clen (itoa_text x)) in *.
  replace (written c buf m) with (itoa_text x).
  - apply from_chars_first_itoa_text.
  - symmetry. exact (written_csubstr (itoa_text x) buf m Hfit).
Qed.

Lemma char_round_trip (c0 : ascii) : round_trip_consistent (char_value c0).
Proof.
  intros x init buf m c Hfit.
  change (fst (c m)) with (clen [x]) in *.
  replace (written c buf m) with [x].
  - reflexivity.
  - symmetry. exact (written_csubstr [x] buf m Hfit).
Qed.

(** With a space between them two integers are read back. *)
Lemma cat_uncat_round_trip_witness :
  let vs := [int_value 1; char_value " "; int_value (-20)] in
  let c := cat (buffer 16) (map as_arg vs) in
  fst (c blank) <> npos /\
  uncat (written c (buffer 16) blank) [int_ref 0; char_ref "x"; int_ref 0]
  = (fst (c blank), map holding vs).
Proof.
  cbv zeta.
  apply (cat_uncat_round_trip
           [int_value 1; char_value " "; int_value (-20)]
           [int_ref 0; char_ref "x"; int_ref 0] (buffer 16) blank).
  - apply Forall_cons; [apply (int_arg_contract 1)|].
    apply Forall_cons; [apply (char_arg_contract " ")|].
    apply Forall_cons; [apply (int_arg_contract (-20))|]. apply Forall_nil.
  - split; [intros init; vm_compute; reflexivity|].
    split; [intros init; vm_compute; reflexivity|].
    split; [intros init; vm_compute; reflexivity|]. exact I.
  - apply Forall2_cons; [now exists 0|].
    apply Forall2_cons; [now exists "x"%char|].
    apply Forall2_cons; [now exists 0|]. apply Forall2_nil.
  - vm_compute. reflexivity.
  - vm_compute. discriminate.
Defined.

(** C2 as stated fails: the integers 1 and 2 have a round-trip consistent
    pair of overloads, [cat] writes them as "12", and [uncat] reads 12 into
    the first variable and finds nothing for the second. *)
Lemma cat_uncat_round_trip_fails :
  written (cat (buffer 8) [int_arg 1; int_arg 2]) (buffer 8) blank = cs "12" /\
  uncat (cs "12") [int_ref 0; int_ref 0] = (npos, [int_ref 12; int_ref 0]) /\
  ~ round_trip_law.
Proof.
  split; [vm_compute; reflexivity|].
  split; [vm_compute; reflexivity|].
  intros H.
  specialize (H [int_value 1; int_value 2] [int_ref 0; int_ref 0]
                (buffer 8) blank).
  cbv zeta in H. destruct H as (H & _).
  - apply Forall_cons; [apply (int_arg_contract 1)|].
    apply Forall_cons; [apply (int_arg_contract 2)|]. apply Forall_nil.
  - apply Forall_cons; [apply int_round_trip|].
    apply Forall_cons; [apply int_round_trip|]. apply Forall_nil.
  - apply Forall2_cons; [now exists 0|].
    apply Forall2_cons; [now exists 0|]. apply Forall2_nil.
  - vm_compute. discriminate.
  - apply H. vm_compute. reflexivity.
Qed.

(** ** Placeholder substitution *)

Lemma starts_with_placeholder (c : ascii) (s : list ascii) :
  starts_with placeholder (c :: s) =
  match s with
  | d :: _ => Ascii.eqb "{" c && Ascii.eqb "}" d
  | [] => false
  end.
Proof.
  cbn [placeholder cs list_ascii_of_string starts_with].
  destruct s as [|d s]; [now rewrite andb_false_r | now rewrite andb_true_r].
Qed.

(** What [find] returns, in terms of the scan. *)
Lemma find_from_split (s : list ascii) :
  forall i,
    0 <= i -> i + clen s <= size_max ->
    (find_from placeholder s i = npos /\
     count_placeholders s = 0%nat /\
     forall t texts, substitute s (t :: texts) = s) \/
    (exists pre rest,
        s = pre ++ "{"%char :: "}"%char :: rest /\
        find_from placeholder s i = i + clen pre /\
        count_placeholders s = S (count_placeholders rest) /\
        forall t texts,
          substitute s (t :: texts) = pre ++ t ++ substitute rest texts).
Proof.
  induction s as [|c s IH]; intros i Hi Hmax.
  - left. repeat split.
  - cbn [find_from]. rewrite starts_with_placeholder.
    unfold clen in Hmax. cbn [List.length] in Hmax.
    destruct s as [|d s'].
    + left. repeat split.
    + destruct (Ascii.eqb "{" c && Ascii.eqb "}" d) eqn:Etok.
      * right. exists [], s'.
        apply andb_true_iff in Etok. destruct Etok as (Ec & Ed).
        apply Ascii.eqb_eq in Ec, Ed. subst c d.
        repeat split. cbn. lia.
      * assert (Hmax' : i + 1 + clen (d :: s') <= size_max)
          by (unfold clen; cbn [List.length] in *; lia).
        destruct (IH (i + 1) ltac:(lia) Hmax')
          as [(Hf & Hc & Hs)|(pre & rest & E & Hf & Hc & Hs)].
        -- left. split; [exact Hf|]. split.
           ++ cbn [count_placeholders]. rewrite Etok. exact Hc.
           ++ intros t texts. cbn [substitute]. rewrite Etok.
              f_equal. apply Hs.
        -- right. exists (c :: pre), rest. split; [now rewrite E|].
           split; [rewrite Hf; unfold clen; cbn [List.length]; lia|].
           split.
           ++ cbn [count_placeholders]. rewrite Etok. exact Hc.
           ++ intros t texts. cbn [substitute]. rewrite Etok.
              cbn [app]. f_equal. apply Hs.
Qed.

Lemma find_placeholder_split (fmt : csubstr) :
  clen fmt <= size_max ->
  (find fmt placeholder = npos /\
   count_placeholders fmt = 0%nat /\
   forall t texts, substitute fmt (t :: texts) = fmt) \/
  (exists pre rest,
      fmt = pre ++ "{"%char :: "}"%char :: rest /\
      find fmt placeholder = clen pre /\
      find fmt placeholder <> npos /\
      csub_n fmt 0 (find fmt placeholder) = pre /\
      csub fmt (wrap (find fmt placeholder + 2)) = rest /\
      clen rest <= size_max /\
      count_placeholders fmt = S (count_placeholders rest) /\
      forall t texts,
        substitute fmt (t :: texts) = pre ++ t ++ substitute rest texts).
Proof.
  intros Hmax. unfold find.
  destruct (find_from_split fmt 0 ltac:(lia) ltac:(lia))
    as [H|(pre & rest & E & Hf & Hc & Hs)]; [left; exact H|].
  right. exists pre, rest. rewrite Hf, Z.add_0_l.
  assert (Hlen : clen fmt = clen pre + 2 + clen rest).
  { rewrite E. unfold clen. rewrite length_app. cbn [List.length]. lia. }
  assert (0 <= clen pre /\ 0 <= clen rest) by (unfold clen; lia).
  repeat split; try assumption.
  - unfold npos. lia.
  - unfold csub_n. cbn [Z.to_nat skipn]. unfold clen. rewrite Nat2Z.id, E.
    now rewrite firstn_app, firstn_all, Nat.sub_diag, app_nil_r.
  - rewrite wrap_small by lia. unfold csub, clen.
    replace (Z.to_nat (Z.of_nat (List.length pre) + 2))
      with (List.length pre + 2)%nat by lia.
    rewrite E, skipn_app, skipn_all2 by lia.
    replace (List.length pre + 2 - List.length pre)%nat with 2%nat by lia.
    reflexivity.
  - lia.
Qed.

(** The text [format] produces is the substitution of the texts of the
    arguments into the template. *)
Lemma format_text_substitute (args : list arg) :
  forall fmt,
    clen fmt <= size_max ->
    format_text fmt args = substitute fmt (map rendered args).
Proof.
  induction args as [|a more IH]; intros fmt Hmax.
  - now destruct fmt.
  - cbn [format_text map].
    destruct (find_placeholder_split fmt Hmax)
      as [(Hf & _ & Hs)|(pre & rest & _ & _ & Hf & Hpre & Hrest & Hmax' & _ & Hs)].
    + now rewrite Hf, Z.eqb_refl, Hs.
    + apply Z.eqb_neq in Hf. rewrite Hf, Hpre, Hrest, Hs.
      now rewrite (IH rest Hmax').
Qed.

(** Arguments beyond the placeholders of the template are not looked at. *)
Lemma format_ignores_extra (args extra : list arg) :
  forall fmt buf m,
    clen fmt <= size_max ->
    (count_placeholders fmt <= List.length args)%nat ->
    format buf fmt (args ++ extra) m = format buf fmt args m.
Proof.
  induction args as [|a more IH]; intros fmt buf m Hmax Hcount.
  - destruct (find_placeholder_split fmt Hmax)
      as [(Hf & _ & _)|(pre & rest & _ & _ & _ & _ & _ & _ & Hc & _)].
    + destruct extra as [|e extra]; [reflexivity|].
      cbn [app format]. now rewrite Hf, Z.eqb_refl.
    + cbn [List.length] in Hcount. lia.
  - cbn [app format].
    destruct (find_placeholder_split fmt Hmax)
      as [(Hf & _ & _)|(pre & rest & _ & _ & Hf & _ & Hrest & Hmax' & Hc & _)].
    + now rewrite Hf, Z.eqb_refl.
    + apply Z.eqb_neq in Hf. rewrite Hf, Hrest. unfold bind.
      destruct (to_chars buf _ m) as [n m1].
      destruct (write _ a m1) as [n' m2].
      rewrite IH; [reflexivity | exact Hmax' | cbn [List.length] in Hcount; lia].
Qed.

(** C6. [format] replaces the placeholders of the template, from the left,
    by the texts of the arguments in their order; arguments beyond the
    placeholders are ignored; placeholders beyond the arguments are written
    as they are.  With "the {} drank {} {}" the arguments "partier", 5,
    "beers" give "the partier drank 5 beers", and "partier", 5 alone give
    "the partier drank 5 {}". *)
Theorem format_placeholder_substitution :
  (forall fmt args,
      Forall sizing_contract args -> clen fmt <= size_max ->
      renders (fun buf => format buf fmt args) (format_size fmt args)
        (substitute fmt (map rendered args))) /\
  (forall fmt args extra buf m,
      clen fmt <= size_max ->
      (count_placeholders fmt <= List.length args)%nat ->
      format buf fmt (args ++ extra) m = format buf fmt args m) /\
  (forall fmt buf m, format buf fmt [] m = to_chars buf fmt m) /\
  (let c := format (buffer 64) (cs "the {} drank {} {}")
              [str_arg "partier"; int_arg 5; str_arg "beers"] in
   fst (c blank) = 25 /\
   written c (buffer 64) blank = cs "the partier drank 5 beers") /\
  (let c := format (buffer 64) (cs "the {} drank {} {}")
              [str_arg "partier"; int_arg 5] in
   fst (c blank) = 22 /\
   written c (buffer 64) blank = cs "the partier drank 5 {}").
Proof.
  split; [|split; [|split; [|split]]].
  - intros fmt args Cargs Hmax.
    rewrite <- (format_text_substitute args fmt Hmax).
    now apply format_renders.
  - intros fmt args extra buf m. apply format_ignores_extra.
  - reflexivity.
  - cbv zeta. split; vm_compute; reflexivity.
  - cbv zeta. split; vm_compute; reflexivity.
Qed.

(** Three placeholders and three arguments; one placeholder and two
    arguments more than it needs. *)
Lemma format_placeholder_substitution_witness :
  renders
    (fun buf => format buf (cs "{}{} = {}") [str_arg "x"; int_arg 1; int_arg (-7)])
    (format_size (cs "{}{} = {}") [str_arg "x"; int_arg 1; int_arg (-7)])
    (cs "x1 = -7") /\
  (forall buf m,
      format buf (cs "<{}>") ([int_arg 3] ++ [str_arg "unused"; int_arg 9]) m =
      format buf (cs "<{}>") [int_arg 3] m).
Proof.
  split.
  - apply (proj1 format_placeholder_substitution (cs "{}{} = {}")
             [str_arg "x"; int_arg 1; int_arg (-7)]).
    + apply Forall_cons; [apply str_arg_contract|].
      apply Forall_cons; [apply int_arg_contract|].
      apply Forall_cons; [apply int_arg_contract|]. apply Forall_nil.
    + vm_compute. discriminate.
  - intros buf m.
    apply (proj1 (proj2 format_placeholder_substitution) (cs "<{}>")
             [int_arg 3] [str_arg "unused"; int_arg 9] buf m).
    + vm_compute. discriminate.
    + cbn. lia.
Defined.

(** * Further properties of the engines *)

(** ** What the engines return *)

Lemma wrap_add_l (a b : Z) : wrap (wrap a + b) = wrap (a + b).
Proof.
  unfold wrap. apply Zplus_mod_idemp_l.
Qed.

Lemma wrap_add_r (a b : Z) : wrap (a + wrap b) = wrap (a + b).
Proof.
  unfold wrap. apply Zplus_mod_idemp_r.
Qed.

Lemma cat_size_sum (args : list arg) :
  cat_size args = wrap (sum_required args).
Proof.
  induction args as [|a more IH]; [reflexivity|].
  cbn [cat_size sum_required fold_right]. fold (sum_required more).
  now rewrite IH, wrap_add_r.
Qed.

Lemma catsep_more_size_sum (sep : arg) (args : list arg) :
  catsep_more_size sep args =
  wrap (sum_required args + Z.of_nat (List.length args) * required sep).
Proof.
  induction args as [|a more IH]; [reflexivity|].
  cbn [catsep_more_size sum_required fold_right List.length].
  fold (sum_required more).
  rewrite IH, wrap_add_l, wrap_add_r. f_equal. lia.
Qed.

(** X1. Whatever the buffer, [cat] returns the sum of the sizes its
    arguments ask for, and [catsep] that sum plus the size of the separator
    for each argument after the first, both reduced modulo 2^64 as the
    [size_t] additions of the code reduce them. *)
Theorem required_sizes_add_up (sep a : arg) (args : list arg)
    (buf : substr) (m : mem) :
  sizing_contract sep -> sizing_contract a -> Forall sizing_contract args ->
  fst (cat buf args m) = wrap (sum_required args) /\
  fst (catsep buf sep a args m) =
  wrap (required a + sum_required args +
        Z.of_nat (List.length args) * required sep).
Proof.
  intros Cs Ca Cargs. split.
  - rewrite <- cat_size_sum. apply (cat_renders args Cargs buf m).
  - destruct (catsep_renders sep a args Cs Ca Cargs buf m) as (S & _).
    cbv beta in S. rewrite S. unfold catsep_size.
    rewrite catsep_more_size_sum, wrap_add_r. f_equal. lia.
Qed.

(** Three arguments and a separator of two characters: 2 + 1 + 3 and two
    separators. *)
Lemma required_sizes_add_up_witness :
  fst (cat (buffer 1) [str_arg "ab"; int_arg 7; int_arg (-15)] blank)
    = wrap (sum_required [str_arg "ab"; int_arg 7; int_arg (-15)]) /\
  fst (catsep (buffer 1) (str_arg ", ") (char_arg "x")
         [str_arg "ab"; int_arg 7; int_arg (-15)] blank)
    = wrap (required (char_arg "x") +
            sum_required [str_arg "ab"; int_arg 7; int_arg (-15)] +
            3 * required (str_arg ", ")).
Proof.
  apply (required_sizes_add_up (str_arg ", ") (char_arg "x")
           [str_arg "ab"; int_arg 7; int_arg (-15)] (buffer 1) blank).
  - apply str_arg_contract.
  - apply char_arg_contract.
  - apply Forall_cons; [apply str_arg_contract|].
    apply Forall_cons; [apply int_arg_contract|].
    apply Forall_cons; [apply int_arg_contract|]. apply Forall_nil.
Defined.

Lemma substitute_length (texts : list (list ascii)) :
  forall fmt,
    clen fmt <= size_max ->
    let k := Nat.min (count_placeholders fmt) (List.length texts) in
    clen (substitute fmt texts) =
    clen fmt - 2 * Z.of_nat k + clen (List.concat (firstn k texts)).
Proof.
  induction texts as [|t texts IH]; intros fmt Hmax k; subst k.
  - rewrite Nat.min_0_r. destruct fmt; cbn [substitute firstn List.concat];
      unfold clen; cbn [List.length]; lia.
  - destruct (find_placeholder_split fmt Hmax)
      as [(_ & Hc & Hs)|(pre & rest & E & _ & _ & _ & _ & Hmax' & Hc & Hs)].
    + rewrite Hs, Hc. cbn [Nat.min firstn List.concat].
      unfold clen; cbn [List.length]; lia.
    + rewrite Hs, Hc. cbn [List.length]. rewrite <- Nat.succ_min_distr.
      cbn [firstn List.concat]. specialize (IH rest Hmax'). cbv zeta in IH.
      unfold clen in *. rewrite !length_app, !Nat2Z.inj_add, IH.
      assert (El : List.length fmt = (List.length pre + S (S (List.length rest)))%nat)
        by (rewrite E, length_app; reflexivity).
      lia.
Qed.

Lemma contracts_firstn (k : nat) (args : list arg) :
  Forall sizing_contract args -> Forall sizing_contract (firstn k args).
Proof.
  intros H. revert k. induction H as [|a more Ca _ IH]; intros [|k];
    cbn [firstn]; constructor; auto.
Qed.

Lemma concat_rendered_length (args : list arg) :
  Forall sizing_contract args ->
  clen (List.concat (map rendered args)) = sum_required args.
Proof.
  induction 1 as [|a more Ca _ IH]; [reflexivity|].
  cbn [map List.concat sum_required fold_right]. fold (sum_required more).
  unfold clen in *. rewrite length_app, Nat2Z.inj_add, IH.
  f_equal. apply (rendered_length a Ca).
Qed.

(** X2. The size [format] returns is the length of the template, less two
    characters for each placeholder it substitutes, plus the sizes the
    substituted arguments ask for, when that is a [size_t]; it substitutes
    one argument for each placeholder, as long as arguments remain. *)
Theorem format_required_size (fmt : csubstr) (args : list arg)
    (buf : substr) (m : mem) :
  Forall sizing_contract args ->
  clen fmt <= size_max ->
  let k := substituted fmt args in
  let total := clen fmt - 2 * Z.of_nat k + sum_required (firstn k args) in
  total <= size_max ->
  fst (format buf fmt args m) = total.
Proof.
  intros Cargs Hmax k total Htotal.
  assert (E : clen (format_text fmt args) = total).
  { rewrite (format_text_substitute args fmt Hmax).
    pose proof (substitute_length (map rendered args) fmt Hmax) as L.
    cbv zeta in L. rewrite length_map in L. fold (substituted fmt args) in L.
    fold k in L. rewrite L, firstn_map.
    rewrite concat_rendered_length by now apply contracts_firstn.
    reflexivity. }
  destruct (format_renders args Cargs fmt buf m) as (S & _).
  cbv beta in S. rewrite S, <- E.
  apply format_size_total; [exact Cargs | lia].
Qed.

(** A template of 12 characters with two placeholders and three arguments:
    12 - 4 + 1 + 2. *)
Lemma format_required_size_witness :
  fst (format (buffer 0) (cs "x = {}; y={}")
         [int_arg 7; int_arg 42; str_arg "unused"] blank) = 11.
Proof.
  apply (format_required_size (cs "x = {}; y={}")
           [int_arg 7; int_arg 42; str_arg "unused"] (buffer 0) blank).
  - apply Forall_cons; [apply int_arg_contract|].
    apply Forall_cons; [apply int_arg_contract|].
    apply Forall_cons; [apply str_arg_contract|]. apply Forall_nil.
  - vm_compute. discriminate.
  - vm_compute. discriminate.
Defined.

(** ** The checking shapes, when the check passes *)

(** The view a checking shape returns over a buffer that holds the text. *)
Lemma checked_view (c : substr -> M Z) (t : list ascii)
    (buf : substr) (m : mem) :
  renders c (clen t) t ->
  clen t <= len buf ->
  (sz <- c buf ;;
   ret (C4_CHECK (sz <=? len buf) "sz <= buf.len"
          (mk_substr (str buf) (if sz <=? len buf then sz else len buf)))) m =
  (Passed (mk_substr (str buf) (clen t)), snd (c buf m)) /\
  load (snd (c buf m)) (str buf) (Z.to_nat (clen t)) = t.
Proof.
  intros R Hfit. destruct (R buf m) as (S & _ & O). unfold bind, ret.
  destruct (c buf m) as [sz m']. cbn [fst snd] in *. subst sz.
  rewrite check_size. destruct (Z.leb_spec (clen t) (len buf)); [|lia].
  split; [reflexivity|]. unfold clen at 1. rewrite Nat2Z.id. now apply O.
Qed.

(** X3. When the buffer can hold the complete output, [cat_sub],
    [catsep_sub] and [format_sub] pass their check and return the view of
    the start of the buffer that holds exactly the output: as many
    characters as the output has, and these are the output. *)
Theorem sub_shapes_return_the_output (sep a : arg) (fmt : csubstr)
    (args : list arg) (buf : substr) (m : mem) :
  sizing_contract sep -> sizing_contract a -> Forall sizing_contract args ->
  (clen (cat_text args) <= size_max ->
   clen (cat_text args) <= len buf ->
   let '(r, m') := cat_sub buf args m in
   r = Passed (mk_substr (str buf) (clen (cat_text args))) /\
   load m' (str buf) (Z.to_nat (clen (cat_text args))) = cat_text args) /\
  (clen (catsep_text sep a args) <= size_max ->
   clen (catsep_text sep a args) <= len buf ->
   let '(r, m') := catsep_sub buf sep a args m in
   r = Passed (mk_substr (str buf) (clen (catsep_text sep a args))) /\
   load m' (str buf) (Z.to_nat (clen (catsep_text sep a args)))
   = catsep_text sep a args) /\
  (clen (format_text fmt args) <= size_max ->
   clen (format_text fmt args) <= len buf ->
   let '(r, m') := format_sub buf fmt args m in
   r = Passed (mk_substr (str buf) (clen (format_text fmt args))) /\
   load m' (str buf) (Z.to_nat (clen (format_text fmt args)))
   = format_text fmt args).
Proof.
  intros Cs Ca Cargs. split; [|split]; intros Hmax Hfit.
  - pose proof (cat_renders args Cargs) as R.
    rewrite (cat_size_total args Cargs Hmax) in R.
    destruct (checked_view _ _ buf m R Hfit) as (E & O).
    unfold cat_sub. rewrite E. split; [reflexivity | exact O].
  - pose proof (catsep_renders sep a args Cs Ca Cargs) as R.
    rewrite (catsep_size_total sep a args Cs Ca Cargs Hmax) in R.
    destruct (checked_view _ _ buf m R Hfit) as (E & O).
    unfold catsep_sub. rewrite E. split; [reflexivity | exact O].
  - pose proof (format_renders args Cargs fmt) as R.
    rewrite (format_size_total args Cargs fmt Hmax) in R.
    destruct (checked_view _ _ buf m R Hfit) as (E & O).
    unfold format_sub. rewrite E. split; [reflexivity | exact O].
Qed.

(** The three shapes on a buffer of 16 characters. *)
Lemma sub_shapes_return_the_output_witness :
  (let '(r, m') := cat_sub (buffer 16) [str_arg "ab"; int_arg 7] blank in
   r = Passed (mk_substr 0 3) /\ load m' 0 3 = cs "ab7") /\
  (let '(r, m') :=
     catsep_sub (buffer 16) (char_arg "/") (int_arg 1) [str_arg "ab"; int_arg 7]
       blank in
   r = Passed (mk_substr 0 6) /\ load m' 0 6 = cs "1/ab/7") /\
  (let '(r, m') :=
     format_sub (buffer 16) (cs "<{}:{}>") [str_arg "ab"; int_arg 7] blank in
   r = Passed (mk_substr 0 6) /\ load m' 0 6 = cs "<ab:7>").
Proof.
  pose proof (sub_shapes_return_the_output (char_arg "/") (int_arg 1)
                (cs "<{}:{}>") [str_arg "ab"; int_arg 7] (buffer 16) blank
                (char_arg_contract "/") (int_arg_contract 1)
                (Forall_cons _ (str_arg_contract "ab")
                   (Forall_cons _ (int_arg_contract 7) (Forall_nil _))))
    as (H1 & H2 & H3).
  split; [|split].
  - apply H1; vm_compute; discriminate.
  - apply H2; vm_compute; discriminate.
  - apply H3; vm_compute; discriminate.
Defined.

(** ** A buffer that is too small *)

Lemma contracts_app (xs ys : list arg) :
  Forall sizing_contract (xs ++ ys) ->
  Forall sizing_contract xs /\ Forall sizing_contract ys.
Proof.
  apply Forall_app.
Qed.

(** X4. [cat] writes the leading arguments that fit even when the whole does
    not: if the texts of the first arguments [xs] fit in the buffer, the
    buffer starts with these texts after the call, whatever the arguments
    [ys] after them ask for, and the returned size still counts them all. *)
Theorem cat_writes_leading_arguments (xs ys : list arg) :
  Forall sizing_contract (xs ++ ys) ->
  forall buf m,
    clen (cat_text xs) <= len buf ->
    fst (cat buf (xs ++ ys) m) = cat_size (xs ++ ys) /\
    load (snd (cat buf (xs ++ ys) m)) (str buf) (List.length (cat_text xs))
    = cat_text xs.
Proof.
  intros C. split; [apply (cat_renders _ C buf m)|].
  revert C buf m H. induction xs as [|a xs IH]; intros C buf m Hfit;
    [reflexivity|].
  cbn [app] in C. inversion C as [|a' l Ca Crest]; subst.
  cbn [app cat]. unfold bind, ret.
  destruct (contract_renders a Ca buf m) as (S & _ & O). cbv beta in S, O.
  destruct (write buf a m) as [num m1]. cbn [fst snd] in S, O. subst num.
  change (cat_text (a :: xs)) with (rendered a ++ cat_text xs) in *.
  pose proof (rendered_length a Ca) as El.
  pose proof (required_nonneg a Ca) as Hpos.
  unfold clen in Hfit, El. rewrite length_app, Nat2Z.inj_add in Hfit.
  assert (Ea : advance buf (required a) = sub buf (required a)).
  { unfold advance. destruct (Z.geb_spec (len buf) (required a)); [reflexivity | lia]. }
  rewrite Ea.
  destruct (cat_renders _ Crest (sub buf (required a)) m1) as (_ & F & _).
  cbv beta in F.
  specialize (IH Crest (sub buf (required a)) m1).
  destruct (cat (sub buf (required a)) (xs ++ ys) m1) as [r m2].
  cbn [fst snd sub str len] in *.
  rewrite length_app, load_app. f_equal.
  - transitivity (load m1 (str buf) (List.length (rendered a))).
    + apply load_ext. intros q Hq. apply F. cbn [sub str len]. lia.
    + apply O. unfold clen. lia.
  - rewrite El. apply IH. unfold clen. lia.
Qed.

(** Into a buffer of 4 characters, "ab" and 7 are written before the text
    that does not fit. *)
Lemma cat_writes_leading_arguments_witness :
  fst (cat (buffer 4)
         ([str_arg "ab"; int_arg 7] ++ [str_arg "too long"; int_arg 1]) blank)
  = cat_size ([str_arg "ab"; int_arg 7] ++ [str_arg "too long"; int_arg 1]) /\
  load (snd (cat (buffer 4)
               ([str_arg "ab"; int_arg 7] ++ [str_arg "too long"; int_arg 1])
               blank)) 0 3
  = cs "ab7".
Proof.
  apply (cat_writes_leading_arguments [str_arg "ab"; int_arg 7]
           [str_arg "too long"; int_arg 1]).
  - apply Forall_cons; [apply str_arg_contract|].
    apply Forall_cons; [apply int_arg_contract|].
    apply Forall_cons; [apply str_arg_contract|].
    apply Forall_cons; [apply int_arg_contract|]. apply Forall_nil.
  - vm_compute. discriminate.
Defined.

(** ** How the engines compose *)

Lemma catsep_more_empty_separator (sep : arg) (args : list arg) :
  sizing_contract sep -> required sep = 0 ->
  catsep_more_text sep args = cat_text args /\
  catsep_more_size sep args = cat_size args.
Proof.
  intros Cs H0.
  assert (Et : rendered sep = []).
  { pose proof (rendered_length sep Cs) as E. rewrite H0 in E.
    unfold clen in E. destruct (rendered sep); [reflexivity | discriminate]. }
  split.
  - unfold catsep_more_text, cat_text. now rewrite Et.
  - rewrite catsep_more_size_sum, cat_size_sum, H0. f_equal. lia.
Qed.

(** X5. With a separator whose text is empty, [catsep] is [cat]: on every
    buffer it returns the size [cat] returns for the same arguments, and
    leaves the text [cat] leaves when the buffer can hold it. *)
Theorem catsep_empty_separator_is_cat (sep a : arg) (more : list arg) :
  sizing_contract sep -> sizing_contract a -> Forall sizing_contract more ->
  required sep = 0 ->
  renders (fun buf => catsep buf sep a more)
    (cat_size (a :: more)) (cat_text (a :: more)) /\
  renders (fun buf => cat buf (a :: more))
    (cat_size (a :: more)) (cat_text (a :: more)).
Proof.
  intros Cs Ca Cm H0. split.
  - destruct (catsep_more_empty_separator sep more Cs H0) as (Et & Es).
    pose proof (catsep_renders sep a more Cs Ca Cm) as R.
    unfold catsep_size, catsep_text in R. rewrite Et, Es in R. exact R.
  - apply cat_renders. now constructor.
Qed.

(** An empty string as separator. *)
Lemma catsep_empty_separator_is_cat_witness :
  renders (fun buf => catsep buf (str_arg "") (int_arg 1) [str_arg "b"; int_arg 2])
    (cat_size [int_arg 1; str_arg "b"; int_arg 2])
    (cat_text [int_arg 1; str_arg "b"; int_arg 2]).
Proof.
  apply (catsep_empty_separator_is_cat (str_arg "") (int_arg 1)
           [str_arg "b"; int_arg 2]).
  - apply str_arg_contract.
  - apply int_arg_contract.
  - apply Forall_cons; [apply str_arg_contract|].
    apply Forall_cons; [apply int_arg_contract|]. apply Forall_nil.
  - reflexivity.
Defined.

Lemma format_text_placeholder_first (rest : csubstr) (a : arg)
    (more : list arg) :
  format_text (placeholder ++ rest) (a :: more) =
  rendered a ++ format_text rest more /\
  format_size (placeholder ++ rest) (a :: more) =
  wrap (wrap (0 + required a) + format_size rest more).
Proof.
  split; reflexivity.
Qed.

Lemma format_bare_placeholders (args : list arg) :
  format_text (bare_placeholders (List.length args)) args = cat_text args /\
  format_size (bare_placeholders (List.length args)) args = cat_size args.
Proof.
  induction args as [|a more (IHt & IHs)]; [split; reflexivity|].
  unfold bare_placeholders in *. cbn [List.length repeat List.concat].
  destruct (format_text_placeholder_first
              (List.concat (repeat placeholder (List.length more))) a more)
    as (Et & Es).
  rewrite Et, Es, IHt, IHs. split; [reflexivity|].
  cbn [cat_size]. now rewrite wrap_add_l.
Qed.

(** X6. With a template that is nothing but one placeholder for each
    argument, [format] is [cat]: it returns the size [cat] returns and
    leaves the text [cat] leaves. *)
Theorem format_bare_placeholders_is_cat (args : list arg) :
  Forall sizing_contract args ->
  renders
    (fun buf => format buf (bare_placeholders (List.length args)) args)
    (cat_size args) (cat_text args) /\
  renders (fun buf => cat buf args) (cat_size args) (cat_text args).
Proof.
  intros Cargs. split; [|now apply cat_renders].
  destruct (format_bare_placeholders args) as (Et & Es).
  rewrite <- Et, <- Es at 1. now apply format_renders.
Qed.

(** The template "{}{}{}" with three arguments. *)
Lemma format_bare_placeholders_is_cat_witness :
  renders
    (fun buf => format buf (cs "{}{}{}") [int_arg 1; str_arg "b"; int_arg 2])
    (cat_size [int_arg 1; str_arg "b"; int_arg 2])
    (cat_text [int_arg 1; str_arg "b"; int_arg 2]).
Proof.
  apply (format_bare_placeholders_is_cat [int_arg 1; str_arg "b"; int_arg 2]).
  apply Forall_cons; [apply int_arg_contract|].
  apply Forall_cons; [apply str_arg_contract|].
  apply Forall_cons; [apply int_arg_contract|]. apply Forall_nil.
Defined.

(** ** The other resizing forms *)

Lemma catsep_size_nonneg (sep a : arg) (more : list arg) :
  0 <= catsep_size sep a more.
Proof.
  apply wrap_range.
Qed.

Lemma format_size_nonneg (args : list arg) :
  forall fmt, 0 <= format_size fmt args.
Proof.
  destruct args as [|a more]; intros fmt; cbn [format_size].
  - unfold clen. lia.
  - destruct (find fmt placeholder =? npos); [unfold clen; lia | apply wrap_range].
Qed.

(** X7. [catseprs] with at least one argument and [formatrs] return within
    two passes over the container: one when the container has at least the
    required size R, two when it is smaller.  The container ends with size
    R, and, R being the length of the complete output, holds that output:
    the arguments with the separator between them, or the template with its
    placeholders substituted. *)
Theorem catseprs_formatrs_two_passes (cont : container) (sep a : arg)
    (fmt : csubstr) (args : list arg) (fuel : nat) :
  sizing_contract sep -> sizing_contract a -> Forall sizing_contract args ->
  (2 <= fuel)%nat ->
  (exists result,
      catseprs fuel cont sep (a :: args) =
      Some (result,
            if clen cont <? catsep_size sep a args then 2%nat else 1%nat) /\
      clen result = catsep_size sep a args /\
      (clen (catsep_text sep a args) <= size_max ->
       result = catsep_text sep a args)) /\
  (exists result,
      formatrs fuel cont fmt args =
      Some (result,
            if clen cont <? format_size fmt args then 2%nat else 1%nat) /\
      clen result = format_size fmt args /\
      (clen fmt <= size_max -> clen (format_text fmt args) <= size_max ->
       result = substitute fmt (map rendered args))).
Proof.
  intros Cs Ca Cargs Hfuel. split.
  - pose proof (catsep_renders sep a args Cs Ca Cargs) as Rn.
    destruct (retry_overwrite_terminates (fun buf => catsep buf sep a args)
                (catsep_size sep a args) cont fuel) as (result & Hrun & Hsize);
      [intros buf m; apply Rn | apply catsep_size_nonneg | exact Hfuel |].
    exists result. cbn [catseprs]. split; [exact Hrun|].
    split; [exact Hsize|]. intros Hmax.
    rewrite (catsep_size_total sep a args Cs Ca Cargs Hmax) in *.
    pose proof (retry_overwrite_two_passes _ _ Rn cont fuel Hfuel) as Htext.
    rewrite Hrun in Htext. now injection Htext.
  - pose proof (format_renders args Cargs fmt) as Rn.
    destruct (retry_overwrite_terminates (fun buf => format buf fmt args)
                (format_size fmt args) cont fuel) as (result & Hrun & Hsize);
      [intros buf m; apply Rn | apply format_size_nonneg | exact Hfuel |].
    exists result. unfold formatrs. split; [exact Hrun|].
    split; [exact Hsize|]. intros Hfmt Hmax.
    rewrite (format_size_total args Cargs fmt Hmax) in *.
    pose proof (retry_overwrite_two_passes _ _ Rn cont fuel Hfuel) as Htext.
    rewrite Hrun in Htext.
    assert (E : result = format_text fmt args) by now injection Htext.
    rewrite E. now apply format_text_substitute.
Qed.

(** A container of one character. *)
Lemma catseprs_formatrs_two_passes_witness :
  (exists result,
      catseprs 3 (cs "x") (str_arg ", ") [int_arg 1; int_arg 2; int_arg 3] =
      Some (result, 2%nat) /\
      clen result = 7 /\
      (7 <= size_max -> result = cs "1, 2, 3")) /\
  (exists result,
      formatrs 3 (cs "x") (cs "{}:{}") [int_arg 2; int_arg 3] =
      Some (result, 2%nat) /\
      clen result = 3 /\
      (5 <= size_max -> 3 <= size_max -> result = cs "2:3")).
Proof.
  apply (catseprs_formatrs_two_passes (cs "x") (str_arg ", ") (int_arg 1)
           (cs "{}:{}") [int_arg 2; int_arg 3] 3).
  - apply str_arg_contract.
  - apply int_arg_contract.
  - apply Forall_cons; [apply int_arg_contract|].
    apply Forall_cons; [apply int_arg_contract|]. apply Forall_nil.
  - lia.
Defined.

(** ** Appending *)

Lemma load_storage_mid (c : list ascii) :
  forall pre rest,
    load (storage (pre ++ c ++ rest)) (Z.of_nat (List.length pre))
      (List.length c) = c.
Proof.
  induction c as [|x c IH]; intros pre rest; [reflexivity|].
  cbn [List.length load]. f_equal.
  - unfold storage. destruct (Z.ltb_spec (Z.of_nat (List.length pre)) 0); [lia|].
    rewrite Nat2Z.id. cbn [app]. apply nth_middle.
  - specialize (IH (pre ++ [x]) rest).
    rewrite <- app_assoc, length_app in IH. cbn [app List.length] in IH.
    replace (Z.of_nat (List.length pre) + 1)
      with (Z.of_nat (List.length pre + 1)) by lia.
    exact IH.
Qed.

Lemma resize_grow (c : container) (k : nat) :
  resize c (Z.of_nat (List.length c + k)) = c ++ repeat zero k.
Proof.
  unfold resize. rewrite Nat2Z.id, firstn_all2 by lia.
  f_equal. f_equal. lia.
Qed.

Section Append.

(** An engine that renders the text [t], run on the part of a container
    after its first characters [prefix]. *)
Variable engine : substr -> M Z.
Variable t : list ascii.
Hypothesis engine_renders : renders engine (clen t) t.
Variable prefix : container.

(** One pass keeps the characters before the position, and leaves the text
    after it when there is room for it. *)
Lemma append_pass (pad : list ascii) :
  let cont := prefix ++ pad in
  let '(r, cont') :=
    on_storage cont (engine (sub (to_substr cont) (clen prefix))) in
  r = clen t /\
  exists pad',
    cont' = prefix ++ pad' /\ List.length pad' = List.length pad /\
    (clen t <= clen pad -> firstn (List.length t) pad' = t).
Proof.
  cbv zeta. unfold on_storage.
  set (buf := sub (to_substr (prefix ++ pad)) (clen prefix)).
  assert (Hstr : str buf = clen prefix) by reflexivity.
  assert (Hlen : len buf = clen pad).
  { unfold buf, sub, to_substr, clen. cbn [len].
    rewrite length_app, Nat2Z.inj_add. lia. }
  destruct (engine_renders buf (storage (prefix ++ pad))) as (S & F & O).
  destruct (engine buf (storage (prefix ++ pad))) as [r m'].
  cbn [fst snd] in S, F, O. split; [exact S|].
  exists (load m' (clen prefix) (List.length pad)).
  rewrite length_app, load_app. cbn [Z.add]. split; [|split].
  - f_equal. transitivity (load (storage (prefix ++ pad)) 0 (List.length prefix)).
    + apply load_ext. intros q Hq. apply F. rewrite Hstr. unfold clen. lia.
    + apply (load_storage_mid prefix [] pad).
  - apply load_length.
  - intros Hfit. rewrite firstn_load by (unfold clen in Hfit; lia).
    rewrite <- Hstr. apply O. lia.
Qed.

(** The appending loop keeps what the container held and adds the text,
    in one pass when the text is empty and in two otherwise. *)
Lemma retry_append_two_passes (fuel : nat) :
  (2 <= fuel)%nat ->
  clen prefix + clen t <= size_max ->
  retry_append engine (clen prefix) fuel prefix =
  Some (prefix ++ t, if 0 <? clen t then 2%nat else 1%nat).
Proof.
  intros Hfuel Hmax. destruct fuel as [|[|fuel]]; try lia.
  cbn [retry_append].
  pose proof (append_pass []) as P1. cbv zeta in P1.
  rewrite app_nil_r in P1.
  destruct (on_storage prefix _) as [r cont1].
  destruct P1 as (-> & pad1 & -> & Hl1 & _).
  destruct pad1; [|discriminate]. rewrite app_nil_r.
  assert (Hw : wrap (clen prefix + clen t)
               = Z.of_nat (List.length prefix + List.length t))
    by (rewrite wrap_small; unfold clen in *; lia).
  rewrite Hw, resize_grow.
  replace (len (sub (to_substr prefix) (clen prefix))) with 0
    by (cbn [sub to_substr len]; lia).
  destruct (Z.gtb_spec (clen t) 0) as [Hpos|Hzero].
  - pose proof (append_pass (repeat zero (List.length t))) as P2.
    cbv zeta in P2.
    destruct (on_storage (prefix ++ repeat zero (List.length t)) _)
      as [r2 cont2].
    destruct P2 as (-> & pad2 & -> & Hl2 & Ht).
    rewrite repeat_length in Hl2.
    rewrite <- Hl2, firstn_all in Ht.
    rewrite Ht by (unfold clen; rewrite repeat_length; lia).
    rewrite Hw.
    replace (List.length prefix + List.length t)%nat
      with (List.length (prefix ++ t) + 0)%nat by (rewrite length_app; lia).
    rewrite resize_grow. cbn [repeat]. rewrite app_nil_r.
    replace (len (sub (to_substr (prefix ++ repeat zero (List.length t)))
                    (clen prefix))) with (clen t).
    + destruct (Z.gtb_spec (clen t) (clen t)); [lia|].
      destruct (Z.ltb_spec 0 (clen t)); [reflexivity | lia].
    + cbn [sub to_substr len]. unfold clen.
      rewrite length_app, repeat_length. lia.
  - assert (Et : t = []).
    { unfold clen in Hzero. destruct t; [reflexivity | cbn [List.length] in Hzero; lia]. }
    rewrite Et. cbn [List.length repeat clen]. rewrite !app_nil_r.
    reflexivity.
Qed.

End Append.

(** X8. The appending forms keep what the container held and add the
    complete output after it: on return the container is its previous
    content followed by the output, the region returned is the output, and
    the engine has run once when the output is empty and twice otherwise;
    this when the new size is a [size_t]. *)
Theorem append_forms_keep_content (cont : container) (sep a : arg)
    (fmt : csubstr) (args : list arg) (fuel : nat) :
  sizing_contract sep -> sizing_contract a -> Forall sizing_contract args ->
  (2 <= fuel)%nat ->
  (clen cont + clen (cat_text args) <= size_max ->
   catrs_append fuel cont args =
   Some (cont ++ cat_text args, cat_text args,
         if 0 <? clen (cat_text args) then 2%nat else 1%nat)) /\
  (clen cont + clen (catsep_text sep a args) <= size_max ->
   catseprs_append fuel cont sep (a :: args) =
   Some (cont ++ catsep_text sep a args, catsep_text sep a args,
         if 0 <? clen (catsep_text sep a args) then 2%nat else 1%nat)) /\
  (clen cont + clen (format_text fmt args) <= size_max ->
   formatrs_append fuel cont fmt args =
   Some (cont ++ format_text fmt args, format_text fmt args,
         if 0 <? clen (format_text fmt args) then 2%nat else 1%nat)).
Proof.
  intros Cs Ca Cargs Hfuel.
  assert (Hcut : forall t : list ascii,
             csub (cont ++ t) (clen cont) = t).
  { intros t. unfold csub, clen.
    now rewrite Nat2Z.id, skipn_app, skipn_all, Nat.sub_diag. }
  assert (Hc : 0 <= clen cont) by (unfold clen; lia).
  split; [|split]; intros Hmax.
  - pose proof (cat_renders args Cargs) as R.
    rewrite (cat_size_total args Cargs) in R by lia.
    unfold catrs_append.
    rewrite (retry_append_two_passes _ _ R cont fuel Hfuel Hmax).
    cbn [appended]. now rewrite Hcut.
  - pose proof (catsep_renders sep a args Cs Ca Cargs) as R.
    rewrite (catsep_size_total sep a args Cs Ca Cargs) in R by lia.
    cbn [catseprs_append].
    rewrite (retry_append_two_passes _ _ R cont fuel Hfuel Hmax).
    cbn [appended]. now rewrite Hcut.
  - pose proof (format_renders args Cargs fmt) as R.
    rewrite (format_size_total args Cargs fmt) in R by lia.
    unfold formatrs_append.
    rewrite (retry_append_two_passes _ _ R cont fuel Hfuel Hmax).
    cbn [appended]. now rewrite Hcut.
Qed.

(** Appending to a container that holds "k=". *)
Lemma append_forms_keep_content_witness :
  catrs_append 2 (cs "k=") [int_arg 1; str_arg "b"]
    = Some (cs "k=" ++ cat_text [int_arg 1; str_arg "b"],
            cat_text [int_arg 1; str_arg "b"], 2%nat) /\
  catseprs_append 2 (cs "k=") (char_arg "/") [int_arg 0; int_arg 1; str_arg "b"]
    = Some (cs "k=" ++ catsep_text (char_arg "/") (int_arg 0)
                         [int_arg 1; str_arg "b"],
            catsep_text (char_arg "/") (int_arg 0) [int_arg 1; str_arg "b"],
            2%nat) /\
  formatrs_append 2 (cs "k=") [] [int_arg 1; str_arg "b"]
    = Some (cs "k=" ++ [], [], 1%nat).
Proof.
  pose proof (append_forms_keep_content (cs "k=") (char_arg "/") (int_arg 0)
                [] [int_arg 1; str_arg "b"] 2
                (char_arg_contract "/") (int_arg_contract 0)
                (Forall_cons _ (int_arg_contract 1)
                   (Forall_cons _ (str_arg_contract "b") (Forall_nil _)))
                (le_n 2)) as (H1 & H2 & H3).
  split; [|split].
  - apply H1. vm_compute. discriminate.
  - apply H2. vm_compute. discriminate.
  - apply H3. vm_compute. discriminate.
Defined.

(** X9. The overloads that create the container return a container that
    holds the complete output and nothing else; starting from an empty
    container, the engine runs once when the output is empty and twice
    otherwise.  This when the length of the output is a [size_t]. *)
Theorem new_container_holds_output (sep a : arg) (fmt : csubstr)
    (args : list arg) (fuel : nat) :
  sizing_contract sep -> sizing_contract a -> Forall sizing_contract args ->
  (2 <= fuel)%nat ->
  (clen (cat_text args) <= size_max ->
   catrs_new fuel args =
   Some (cat_text args, if 0 <? clen (cat_text args) then 2%nat else 1%nat)) /\
  (clen (catsep_text sep a args) <= size_max ->
   catseprs_new fuel sep (a :: args) =
   Some (catsep_text sep a args,
         if 0 <? clen (catsep_text sep a args) then 2%nat else 1%nat)) /\
  (clen (format_text fmt args) <= size_max ->
   formatrs_new fuel fmt args =
   Some (format_text fmt args,
         if 0 <? clen (format_text fmt args) then 2%nat else 1%nat)).
Proof.
  intros Cs Ca Cargs Hfuel. split; [|split]; intros Hmax.
  - pose proof (cat_renders args Cargs) as R.
    rewrite (cat_size_total args Cargs Hmax) in R.
    apply (retry_overwrite_two_passes _ _ R [] fuel Hfuel).
  - pose proof (catsep_renders sep a args Cs Ca Cargs) as R.
    rewrite (catsep_size_total sep a args Cs Ca Cargs Hmax) in R.
    apply (retry_overwrite_two_passes _ _ R [] fuel Hfuel).
  - pose proof (format_renders args Cargs fmt) as R.
    rewrite (format_size_total args Cargs fmt Hmax) in R.
    apply (retry_overwrite_two_passes _ _ R [] fuel Hfuel).
Qed.

(** Two arguments, and none. *)
Lemma new_container_holds_output_witness :
  catrs_new 2 [int_arg 1; str_arg "b"]
    = Some (cat_text [int_arg 1; str_arg "b"], 2%nat) /\
  formatrs_new 2 [] [int_arg 1; str_arg "b"] = Some ([], 1%nat).
Proof.
  pose proof (new_container_holds_output (char_arg "/") (int_arg 0)
                [] [int_arg 1; str_arg "b"] 2
                (char_arg_contract "/") (int_arg_contract 0)
                (Forall_cons _ (int_arg_contract 1)
                   (Forall_cons _ (str_arg_contract "b") (Forall_nil _)))
                (le_n 2)) as (H1 & _ & H3).
  split.
  - apply H1. vm_compute. discriminate.
  - apply H3. vm_compute. discriminate.
Defined.

(** ** Reading back what [catsep] wrote *)

Lemma cadvance_app (t rest : list ascii) (n : Z) :
  clen t = n -> cadvance (t ++ rest) n = rest.
Proof.
  intros <-. unfold cadvance, csub, clen.
  rewrite length_app, Nat2Z.inj_add.
  destruct (Z.geb_spec (Z.of_nat (List.length t) + Z.of_nat (List.length rest))
              (Z.of_nat (List.length t))); [|lia].
  now rewrite Nat2Z.id, skipn_app, skipn_all, Nat.sub_diag.
Qed.

Lemma uncatsep_more_reads_back (sep : value) (vs : list value) :
  sizing_contract (as_arg sep) ->
  forall rs (s0 : value_type sep),
    Forall (fun v => sizing_contract (as_arg v)) vs ->
    reads_back_separated sep vs ->
    Forall2 fresh_for vs rs ->
    clen (catsep_more_text (as_arg sep) (map as_arg vs)) < npos ->
    detail.uncatsep_more (catsep_more_text (as_arg sep) (map as_arg vs))
      (variable sep s0) rs =
    (clen (catsep_more_text (as_arg sep) (map as_arg vs)),
     (match vs with [] => variable sep s0 | _ :: _ => holding sep end,
      map holding vs)).
Proof.
  intros Cs. induction vs as [|v more IH]; intros rs s0 Cv Hrb Hfresh Hmax;
    inversion Hfresh as [|v' r more' rs' (init & ->) Hfresh']; subst.
  - reflexivity.
  - inversion Cv as [|v' more' Cv1 Cmore]; subst.
    destruct Hrb as (Hsep & Hv & Hmore).
    cbn [detail.uncatsep_more]. rewrite read_variable, (Hsep s0).
    change (catsep_more_text (as_arg sep) (map as_arg (v :: more)))
      with ((rendered (as_arg sep) ++ rendered (as_arg v)) ++
            catsep_more_text (as_arg sep) (map as_arg more)) in *.
    set (rest := catsep_more_text (as_arg sep) (map as_arg more)) in *.
    pose proof (rendered_length _ Cs) as Es.
    pose proof (rendered_length _ Cv1) as Ev.
    pose proof (required_nonneg _ Cs) as Hs0.
    pose proof (required_nonneg _ Cv1) as Hv0.
    assert (Hrest : 0 <= clen rest) by (unfold clen; lia).
    assert (Hlen : clen ((rendered (as_arg sep) ++ rendered (as_arg v)) ++ rest)
                   = required (as_arg sep) + required (as_arg v) + clen rest).
    { unfold clen in *. rewrite !length_app, !Nat2Z.inj_add. lia. }
    rewrite Hlen in *.
    destruct (Z.eqb_spec (required (as_arg sep)) npos) as [En|_]; [lia|].
    rewrite <- app_assoc, (cadvance_app _ _ _ Es).
    rewrite read_variable, (Hv init).
    destruct (Z.eqb_spec (required (as_arg v)) npos) as [En|_]; [lia|].
    rewrite (cadvance_app _ _ _ Ev).
    rewrite (IH rs' (value_val sep) Cmore Hmore Hfresh') by lia.
    destruct (Z.eqb_spec (clen rest) npos) as [En|_]; [lia|].
    rewrite (wrap_small (required (as_arg sep) + required (as_arg v)))
      by (unfold npos in Hmax; lia).
    rewrite wrap_small by (unfold npos in Hmax; lia).
    f_equal. f_equal. now destruct more.
Qed.

(** X10. [uncatsep] reads back what [catsep] wrote.  For values and a
    separator whose [to_chars] overloads keep the sizing contract, whose
    complete text is shorter than [npos], and each of which is read back by
    its [from_chars_first] from its text followed by the text after it:
    [uncatsep], on what [catsep] wrote into a buffer that holds it, returns
    the size [catsep] returned and leaves each variable holding its value.
    The separator variable holds the separator when there are at least two
    values; with one value it is not read and keeps what it held. *)
Theorem catsep_uncatsep_round_trip (sep a : value) (more : list value)
    (rs : list ref) (s0 : value_type sep) (a0 : value_type a)
    (buf : substr) (m : mem) :
  sizing_contract (as_arg sep) -> sizing_contract (as_arg a) ->
  Forall (fun v => sizing_contract (as_arg v)) more ->
  (forall init : value_type a,
      @from_chars_first _ (value_from_chars a)
        (catsep_text (as_arg sep) (as_arg a) (map as_arg more)) init =
      (required (as_arg a), value_val a)) ->
  reads_back_separated sep more ->
  Forall2 fresh_for more rs ->
  clen (catsep_text (as_arg sep) (as_arg a) (map as_arg more)) < npos ->
  let c := catsep buf (as_arg sep) (as_arg a) (map as_arg more) in
  fst (c m) <= len buf ->
  uncatsep (written c buf m) (variable sep s0) (variable a a0) rs =
  (fst (c m),
   (match more with [] => variable sep s0 | _ :: _ => holding sep end,
    (holding a, map holding more))).
Proof.
  intros Cs Ca Cm Ha Hrb Hfresh Hmax c Hfit. subst c.
  assert (Cargs : Forall sizing_contract (map as_arg more))
    by (rewrite Forall_map; exact Cm).
  pose proof (catsep_renders _ _ _ Cs Ca Cargs buf m) as (S & _ & O).
  cbv beta in S, O.
  rewrite (catsep_size_total _ _ _ Cs Ca Cargs) in S
    by (unfold npos in Hmax; lia).
  unfold written.
  destruct (catsep buf (as_arg sep) (as_arg a) (map as_arg more) m) as [R m'].
  cbn [fst snd] in *. subst R.
  unfold clen at 1. rewrite Nat2Z.id, O by lia.
  unfold uncatsep. rewrite read_variable, (Ha a0).
  unfold catsep_text in *.
  set (rest := catsep_more_text (as_arg sep) (map as_arg more)) in *.
  pose proof (rendered_length _ Ca) as Ea.
  pose proof (required_nonneg _ Ca) as Ha0.
  assert (Hrest : 0 <= clen rest) by (unfold clen; lia).
  assert (Hlen : clen (rendered (as_arg a) ++ rest)
                 = required (as_arg a) + clen rest).
  { unfold clen in *. rewrite length_app, Nat2Z.inj_add. lia. }
  rewrite Hlen in *.
  destruct (Z.eqb_spec (required (as_arg a)) npos) as [En|_]; [lia|].
  rewrite (cadvance_app _ _ _ Ea).
  unfold rest. rewrite (uncatsep_more_reads_back sep more Cs rs s0 Cm Hrb Hfresh)
    by (fold rest; lia).
  fold rest. destruct (Z.eqb_spec (clen rest) npos) as [En|_]; [lia|].
  rewrite wrap_small by (unfold npos in Hmax; lia). reflexivity.
Qed.

(** Three integers with a comma between them. *)
Lemma catsep_uncatsep_round_trip_witness :
  let c := catsep (buffer 16) (as_arg (char_value ","))
             (as_arg (int_value 10)) (map as_arg [int_value (-2); int_value 3]) in
  uncatsep (written c (buffer 16) blank)
    (variable (char_value ",") "?"%char) (variable (int_value 10) 0)
    [int_ref 0; int_ref 0] =
  (fst (c blank),
   (holding (char_value ","),
    (holding (int_value 10), map holding [int_value (-2); int_value 3]))).
Proof.
  cbv zeta.
  apply (catsep_uncatsep_round_trip (char_value ",") (int_value 10)
           [int_value (-2); int_value 3] [int_ref 0; int_ref 0]
           "?"%char 0 (buffer 16) blank).
  - apply (char_arg_contract ",").
  - apply (int_arg_contract 10).
  - apply Forall_cons; [apply (int_arg_contract (-2))|].
    apply Forall_cons; [apply (int_arg_contract 3)|]. apply Forall_nil.
  - intros init. vm_compute. reflexivity.
  - split; [intros init; vm_compute; reflexivity|].
    split; [intros init; vm_compute; reflexivity|].
    split; [intros init; vm_compute; reflexivity|].
    split; [intros init; vm_compute; reflexivity|]. exact I.
  - apply Forall2_cons; [now exists 0|].
    apply Forall2_cons; [now exists 0|]. apply Forall2_nil.
  - vm_compute. reflexivity.
  - vm_compute. discriminate.
Defined.

(** ** Reading back what [format] wrote *)

Lemma unformat_reads_back (vs : list value) :
  forall fmt rs,
    Forall (fun v => sizing_contract (as_arg v)) vs ->
    clen fmt <= size_max ->
    (List.length vs <= count_placeholders fmt)%nat ->
    reads_back_formatted fmt vs ->
    Forall2 fresh_for vs rs ->
    clen (format_text fmt (map as_arg vs)) < npos ->
    clen (template_rest fmt (List.length vs))
      <= clen (format_text fmt (map as_arg vs)) /\
    unformat (format_text fmt (map as_arg vs)) fmt rs =
    (clen (format_text fmt (map as_arg vs))
     - clen (template_rest fmt (List.length vs)),
     map holding vs).
Proof.
  induction vs as [|v more IH]; intros fmt rs Cv Hfmt Hcount Hrb Hfresh Hmax;
    inversion Hfresh as [|v' r more' rs' (init & ->) Hfresh']; subst.
  - cbn [map format_text List.length template_rest unformat].
    split; [lia | f_equal; lia].
  - inversion Cv as [|v' more' Cv1 Cmore]; subst.
    cbn [List.length] in Hcount.
    destruct (find_placeholder_split fmt Hfmt)
      as [(_ & Hc & _)|(pre & rest & _ & Hpos & Hf & Hpre & Hrest & Hmax' & Hc & _)];
      [lia|].
    cbn [reads_back_formatted] in Hrb. rewrite Hrest in Hrb.
    destruct Hrb as (Hv & Hmore).
    cbn [map format_text List.length template_rest unformat] in *.
    apply Z.eqb_neq in Hf. rewrite Hf, Hpre, Hrest in *.
    set (out := format_text rest (map as_arg more)) in *.
    pose proof (rendered_length _ Cv1) as Ev.
    pose proof (required_nonneg _ Cv1) as Hv0.
    assert (Hp0 : 0 <= clen pre) by (unfold clen; lia).
    assert (Hlen : clen (pre ++ rendered (as_arg v) ++ out)
                   = clen pre + required (as_arg v) + clen out).
    { unfold clen in *. rewrite !length_app, !Nat2Z.inj_add. lia. }
    rewrite Hlen in *.
    assert (Hout : 0 <= clen out) by (unfold clen; lia).
    assert (Hout' : clen out < npos) by lia.
    destruct (IH rest rs' Cmore Hmax' ltac:(lia) Hmore Hfresh' Hout')
      as (Hle & Hun). fold out in Hle, Hun.
    split; [lia|].
    rewrite Hpos, (cadvance_app pre _ _ eq_refl).
    rewrite read_variable, (Hv init).
    destruct (Z.eqb_spec (required (as_arg v)) npos) as [En|_]; [lia|].
    rewrite (cadvance_app _ _ _ Ev). fold out. rewrite Hun.
    set (tail := clen (template_rest rest (List.length more))) in *.
    assert (Ht : 0 <= tail) by (unfold tail, clen; lia).
    destruct (Z.eqb_spec (clen out - tail) npos) as [En|_]; [lia|].
    rewrite (wrap_small (clen pre + required (as_arg v)))
      by (unfold npos in Hmax; lia).
    rewrite wrap_small by (unfold npos in Hmax; lia).
    f_equal. lia.
Qed.

(** X11. [unformat] reads back what [format] wrote.  For a template with a
    placeholder for each value, values whose [to_chars] overloads keep the
    sizing contract, an output shorter than [npos], and values each read
    back by [from_chars_first] from its text followed by the rest of the
    output: [unformat] with the same template, on what [format] wrote into
    a buffer that holds it, leaves each variable holding its value.  The
    size it returns is that of [format] less the text of the template
    after the last placeholder used, which [unformat] does not count. *)
Theorem format_unformat_round_trip (fmt : csubstr) (vs : list value)
    (rs : list ref) (buf : substr) (m : mem) :
  Forall (fun v => sizing_contract (as_arg v)) vs ->
  clen fmt <= size_max ->
  (List.length vs <= count_placeholders fmt)%nat ->
  reads_back_formatted fmt vs ->
  Forall2 fresh_for vs rs ->
  clen (format_text fmt (map as_arg vs)) < npos ->
  let c := format buf fmt (map as_arg vs) in
  fst (c m) <= len buf ->
  unformat (written c buf m) fmt rs =
  (fst (c m) - clen (template_rest fmt (List.length vs)), map holding vs).
Proof.
  intros Cv Hfmt Hcount Hrb Hfresh Hmax c Hfit. subst c.
  assert (Cargs : Forall sizing_contract (map as_arg vs))
    by (rewrite Forall_map; exact Cv).
  pose proof (format_renders _ Cargs fmt buf m) as (S & _ & O).
  cbv beta in S, O.
  rewrite (format_size_total _ Cargs) in S by (unfold npos in Hmax; lia).
  unfold written. destruct (format buf fmt (map as_arg vs) m) as [R m'].
  cbn [fst snd] in *. subst R.
  unfold clen at 1. rewrite Nat2Z.id, O by lia.
  now apply unformat_reads_back.
Qed.

(** Two integers in a template that ends with a semicolon: [format] returns
    11, [unformat] 10. *)
Lemma format_unformat_round_trip_witness :
  let c := format (buffer 16) (cs "x={}, y={};")
             (map as_arg [int_value 10; int_value (-2)]) in
  fst (c blank) = 11 /\
  unformat (written c (buffer 16) blank) (cs "x={}, y={};")
    [int_ref 0; int_ref 0] =
  (10, map holding [int_value 10; int_value (-2)]).
Proof.
  cbv zeta. split; [vm_compute; reflexivity|].
  apply (format_unformat_round_trip (cs "x={}, y={};")
           [int_value 10; int_value (-2)] [int_ref 0; int_ref 0]
           (buffer 16) blank).
  - apply Forall_cons; [apply (int_arg_contract 10)|].
    apply Forall_cons; [apply (int_arg_contract (-2))|]. apply Forall_nil.
  - vm_compute. discriminate.
  - cbn. lia.
  - split; [intros init; vm_compute; reflexivity|].
    split; [intros init; vm_compute; reflexivity|]. exact I.
  - apply Forall2_cons; [now exists 0|].
    apply Forall2_cons; [now exists 0|]. apply Forall2_nil.
  - vm_compute. reflexivity.
  - vm_compute. discriminate.
Defined.

(** ** What the readers leave alone *)

(** X12. [unformat] reads at most as many arguments as the template has
    placeholders: the arguments beyond that number are, on every input
    and whatever the outcome, as they were before the call.  A template
    without placeholder leaves them all. *)
Theorem unformat_leaves_unmatched_arguments (args : list ref) :
  forall (buf fmt : csubstr),
    clen fmt <= size_max ->
    skipn (count_placeholders fmt) (snd (unformat buf fmt args)) =
    skipn (count_placeholders fmt) args.
Proof.
  induction args as [|a more IH]; intros buf fmt Hmax; [reflexivity|].
  cbn [unformat].
  destruct (find_placeholder_split fmt Hmax)
    as [(Hf & _ & _)|(pre & rest & _ & _ & Hf & _ & Hrest & Hmax' & Hc & _)].
  - now rewrite Hf, Z.eqb_refl.
  - apply Z.eqb_neq in Hf. rewrite Hf, Hrest, Hc.
    destruct (read _ a) as [num a'].
    destruct (num =? npos); [reflexivity|].
    specialize (IH (cadvance (cadvance buf (find fmt placeholder)) num)
                  rest Hmax').
    destruct (unformat _ rest more) as [num' more'].
    cbn [snd] in IH. destruct (num' =? npos); cbn [snd skipn]; exact IH.
Qed.

(** Two placeholders and three variables: the third keeps its 9. *)
Lemma unformat_leaves_unmatched_arguments_witness :
  skipn 2 (snd (unformat (cs "1 2 3") (cs "{} {}")
                  [int_ref 0; int_ref 0; int_ref 9])) = [int_ref 9].
Proof.
  apply (unformat_leaves_unmatched_arguments
           [int_ref 0; int_ref 0; int_ref 9] (cs "1 2 3") (cs "{} {}")).
  vm_compute. discriminate.
Defined.

Lemma cadvance_one (buf : csubstr) : cadvance buf 1 = skipn 1 buf.
Proof.
  unfold cadvance, csub.
  destruct (Z.geb_spec (clen buf) 1) as [_|Hlt]; [reflexivity|].
  destruct buf; [reflexivity|]. unfold clen in Hlt. cbn [List.length] in Hlt.
  lia.
Qed.

Lemma cadvance_zero (buf : csubstr) : cadvance buf 0 = buf.
Proof.
  unfold cadvance, csub.
  destruct (Z.geb_spec (clen buf) 0) as [_|Hlt]; [reflexivity|].
  unfold clen in Hlt. lia.
Qed.

Lemma raw_reads_range (from_chars_raw : csubstr -> fmt.raw_wrapper_ -> bool)
    (rs : list fmt.raw_wrapper_) :
  forall buf, 0 <= raw_reads from_chars_raw buf rs <= Z.of_nat (List.length rs).
Proof.
  induction rs as [|r more IH]; intros buf; cbn [raw_reads List.length].
  - lia.
  - destruct (from_chars_raw buf r).
    + specialize (IH (skipn 1 buf)). lia.
    + specialize (IH buf). lia.
Qed.

(** X13. A raw wrapper never makes [uncat] fail.  Its [from_chars_first]
    returns the [bool] of [from_chars] as a size, 1 for yes and 0 for no,
    and leaves the wrapper as it is.  So on a list of raw wrappers [uncat]
    returns the number of wrappers for which [from_chars] answers yes, each
    asked on the input one character further on after every yes before it
    and where it was after every no: a count between 0 and the number of
    wrappers, never [npos], whatever [from_chars] answers. *)
Theorem uncat_raw_wrappers_never_npos
    (from_chars_raw : csubstr -> fmt.raw_wrapper_ -> bool)
    (rs : list fmt.raw_wrapper_) :
  Z.of_nat (List.length rs) < npos ->
  forall buf,
    (forall r,
        read buf (raw_ref from_chars_raw r) =
        ((if from_chars_raw buf r then 1 else 0), raw_ref from_chars_raw r)) /\
    fst (uncat buf (map (raw_ref from_chars_raw) rs))
    = raw_reads from_chars_raw buf rs /\
    0 <= fst (uncat buf (map (raw_ref from_chars_raw) rs))
      <= Z.of_nat (List.length rs) /\
    fst (uncat buf (map (raw_ref from_chars_raw) rs)) <> npos /\
    snd (uncat buf (map (raw_ref from_chars_raw) rs))
    = map (raw_ref from_chars_raw) rs.
Proof.
  intros Hn buf. split; [reflexivity|].
  assert (Hnpos : npos = 18446744073709551615) by reflexivity.
  assert (H : fst (uncat buf (map (raw_ref from_chars_raw) rs))
              = raw_reads from_chars_raw buf rs /\
              snd (uncat buf (map (raw_ref from_chars_raw) rs))
              = map (raw_ref from_chars_raw) rs).
  { revert Hn buf. induction rs as [|r more IH]; intros Hn buf.
    - split; reflexivity.
    - cbn [List.length] in Hn. cbn [map uncat raw_reads].
      assert (Er : read buf (raw_ref from_chars_raw r) =
                   ((if from_chars_raw buf r then 1 else 0),
                    raw_ref from_chars_raw r)) by reflexivity.
      rewrite Er.
      assert (Hmore : Z.of_nat (List.length more) < npos) by lia.
      destruct (from_chars_raw buf r).
      + rewrite cadvance_one.
        destruct (IH Hmore (skipn 1 buf)) as (Hfst & Hsnd).
        pose proof (raw_reads_range from_chars_raw more (skipn 1 buf)) as Hr.
        destruct (uncat (skipn 1 buf) (map (raw_ref from_chars_raw) more))
          as [num more'].
        cbn [fst snd] in Hfst, Hsnd. subst num more'.
        destruct (Z.eqb_spec 1 npos) as [E|_]; [lia|].
        destruct (Z.eqb_spec (raw_reads from_chars_raw (skipn 1 buf) more) npos)
          as [E|_]; [lia|].
        cbn [fst snd]. split; [|reflexivity].
        apply wrap_small. clear Hnpos. unfold npos in *. lia.
      + rewrite cadvance_zero.
        destruct (IH Hmore buf) as (Hfst & Hsnd).
        pose proof (raw_reads_range from_chars_raw more buf) as Hr.
        destruct (uncat buf (map (raw_ref from_chars_raw) more))
          as [num more'].
        cbn [fst snd] in Hfst, Hsnd. subst num more'.
        destruct (Z.eqb_spec 0 npos) as [E|_]; [lia|].
        destruct (Z.eqb_spec (raw_reads from_chars_raw buf more) npos)
          as [E|_]; [lia|].
        cbn [fst snd]. split; [|reflexivity].
        apply wrap_small. clear Hnpos. unfold npos in *. lia. }
  destruct H as (Hfst & Hsnd).
  pose proof (raw_reads_range from_chars_raw rs buf) as Hr.
  rewrite Hfst. repeat split; try lia; assumption.
Qed.

(** Three wrappers on the input aab, with a [from_chars] that answers yes
    on an input that starts with the letter a: the first is asked on aab,
    the second on ab, the third on b, and the count is 2. *)
Lemma uncat_raw_wrappers_never_npos_witness :
  let on_a := fun (buf : csubstr) (_ : fmt.raw_wrapper_) =>
                match buf with
                | c :: _ => Ascii.eqb c "a"
                | [] => false
                end in
  let w := fmt.mk_raw_wrapper_ (fmt.mk_blob 4096 8) 8 in
  (forall r,
      read (cs "aab") (raw_ref on_a r) =
      ((if on_a (cs "aab") r then 1 else 0), raw_ref on_a r)) /\
  fst (uncat (cs "aab") (map (raw_ref on_a) [w; w; w])) = 2 /\
  0 <= fst (uncat (cs "aab") (map (raw_ref on_a) [w; w; w])) <= 3 /\
  fst (uncat (cs "aab") (map (raw_ref on_a) [w; w; w])) <> npos /\
  snd (uncat (cs "aab") (map (raw_ref on_a) [w; w; w]))
  = map (raw_ref on_a) [w; w; w].
Proof.
  cbv zeta.
  apply (uncat_raw_wrappers_never_npos
           (fun (buf : csubstr) (_ : fmt.raw_wrapper_) =>
              match buf with
              | c :: _ => Ascii.eqb c "a"
              | [] => false
              end)
           [fmt.mk_raw_wrapper_ (fmt.mk_blob 4096 8) 8;
            fmt.mk_raw_wrapper_ (fmt.mk_blob 4096 8) 8;
            fmt.mk_raw_wrapper_ (fmt.mk_blob 4096 8) 8]).
  vm_compute. reflexivity.
Defined.

(** ** The benchmark's supply of numbers *)

Lemma ranf_next_ok {A} (d : A) (r : ranf A) :
  ranf_ok r ->
  ranf_next d r =
  (nth (Z.to_nat (ranf_curr r)) (ranf_v r) d,
   mk_ranf (ranf_v r)
     ((ranf_curr r + 1) mod Z.of_nat (List.length (ranf_v r)))) /\
  ranf_ok (snd (ranf_next d r)).
Proof.
  intros (Hc & Hmax). unfold ranf_next.
  rewrite wrap_small by lia. split; [reflexivity|].
  cbn [snd]. unfold ranf_ok. cbn [ranf_v ranf_curr]. split; [|exact Hmax].
  apply Z.mod_pos_bound. lia.
Qed.

Lemma ranf_run_cycles {A} (d : A) (n : nat) :
  forall r : ranf A,
    ranf_ok r ->
    let size := Z.of_nat (List.length (ranf_v r)) in
    ranf_run d n r =
    (map (fun i => nth (Z.to_nat ((ranf_curr r + Z.of_nat i) mod size))
                     (ranf_v r) d) (seq 0 n),
     mk_ranf (ranf_v r) ((ranf_curr r + Z.of_nat n) mod size)).
Proof.
  induction n as [|n IH]; intros r Hok size; subst size.
  - destruct r as [v c]. destruct Hok as (Hc & _). cbn [ranf_v ranf_curr] in *.
    cbn [ranf_run seq map Z.of_nat]. now rewrite Z.add_0_r, Z.mod_small.
  - cbn [ranf_run]. destruct (ranf_next_ok d r Hok) as (E & Hok1).
    rewrite E in *. cbn [snd] in Hok1.
    rewrite (IH _ Hok1). cbn [ranf_v ranf_curr].
    destruct Hok as (Hc & Hmax).
    set (size := Z.of_nat (List.length (ranf_v r))) in *.
    f_equal.
    + cbn [seq map]. f_equal.
      * cbn [Z.of_nat]. now rewrite Z.add_0_r, Z.mod_small.
      * rewrite <- seq_shift, map_map. apply map_ext. intros i.
        rewrite Zplus_mod_idemp_l. do 3 f_equal. lia.
    + f_equal. rewrite Zplus_mod_idemp_l. f_equal. lia.
Qed.

Lemma map_nth_seq {A} (d : A) (l : list A) :
  map (fun i => nth i l d) (seq 0 (List.length l)) = l.
Proof.
  induction l as [|x l IH]; [reflexivity|].
  cbn [List.length seq map nth]. f_equal.
  rewrite <- seq_shift, map_map. exact IH.
Qed.

(** X14. [ranf::next()] hands out the numbers of the vector in order and
    starts again at the end.  From a state whose cursor is inside a vector
    that is not empty, [n] calls return the numbers at the positions
    cursor, cursor + 1, ... taken modulo the size, and leave the vector as
    it is and the cursor inside it.  A freshly built [ranf] hands out, in
    as many calls as it has numbers, each number drawn, once and in the
    order drawn, and is then as it was built. *)
Theorem ranf_next_cycles {A} (d : A) :
  (forall (n : nat) (r : ranf A),
      ranf_ok r ->
      let size := Z.of_nat (List.length (ranf_v r)) in
      fst (ranf_run d n r) =
      map (fun i => nth (Z.to_nat ((ranf_curr r + Z.of_nat i) mod size))
                      (ranf_v r) d) (seq 0 n) /\
      ranf_v (snd (ranf_run d n r)) = ranf_v r /\
      ranf_curr (snd (ranf_run d n r)) = (ranf_curr r + Z.of_nat n) mod size /\
      ranf_ok (snd (ranf_run d n r))) /\
  (forall drawn : list A,
      drawn <> [] -> Z.of_nat (List.length drawn) <= size_max ->
      ranf_run d (List.length drawn) (ranf_ctor drawn) =
      (drawn, ranf_ctor drawn)).
Proof.
  split.
  - intros n r Hok size. rewrite (ranf_run_cycles d n r Hok).
    cbn [fst snd ranf_v ranf_curr].
    assert (Hin : 0 <= (ranf_curr r + Z.of_nat n)
                       mod Z.of_nat (List.length (ranf_v r))
                  < Z.of_nat (List.length (ranf_v r)))
      by (apply Z.mod_pos_bound; destruct Hok; lia).
    split; [reflexivity|]. split; [reflexivity|]. split; [reflexivity|].
    split; [exact Hin | apply Hok].
  - intros drawn Hne Hmax.
    assert (Hok : ranf_ok (ranf_ctor drawn)).
    { split; [|exact Hmax]. cbn [ranf_ctor ranf_v ranf_curr].
      destruct drawn; [contradiction | cbn [List.length]; lia]. }
    rewrite (ranf_run_cycles d _ _ Hok). cbn [ranf_ctor ranf_v ranf_curr].
    f_equal.
    + transitivity (map (fun i => nth i drawn d) (seq 0 (List.length drawn)));
        [|apply map_nth_seq].
      apply map_ext_in. intros i Hi. apply in_seq in Hi. cbn [Z.add].
      rewrite Z.mod_small by lia. now rewrite Nat2Z.id.
    + unfold ranf_ctor. f_equal. cbn [Z.add]. apply Z_mod_same_full.
Qed.

(** Three numbers and seven calls from the second. *)
Lemma ranf_next_cycles_witness :
  fst (ranf_run 0%nat 7 (mk_ranf [10; 20; 30]%nat 1)) =
  [20; 30; 10; 20; 30; 10; 20]%nat /\
  ranf_run 0%nat 3 (ranf_ctor [10; 20; 30]%nat) =
  ([10; 20; 30]%nat, ranf_ctor [10; 20; 30]%nat).
Proof.
  split.
  - apply (proj1 (ranf_next_cycles 0%nat) 7%nat (mk_ranf [10; 20; 30]%nat 1)).
    split; [cbn; lia | vm_compute; discriminate].
  - apply (proj2 (ranf_next_cycles 0%nat) [10; 20; 30]%nat).
    + discriminate.
    + vm_compute. discriminate.
Defined.

(** ** What a failed read leaves behind *)

(** X15. Nothing is rolled back when a sub-parse fails: the variables before
    the one that failed hold what [uncat], respectively [unformat], stores
    in them when called with these variables alone. *)
Theorem parsed_values_are_kept (k : nat) :
  (forall buf args,
      uncat_fails_at k buf args ->
      firstn k (snd (uncat buf args)) = snd (uncat buf (firstn k args))) /\
  (forall buf fmt args,
      unformat_fails_at k buf fmt args ->
      firstn k (snd (unformat buf fmt args))
      = snd (unformat buf fmt (firstn k args))).
Proof.
  induction k as [|k (IHc & IHf)]; split.
  - intros buf [|a more] H; reflexivity.
  - intros buf fmt [|a more] H; reflexivity.
  - intros buf [|a more] H; [contradiction|].
    cbn [uncat_fails_at] in H. cbn [firstn uncat].
    destruct (read buf a) as [out a']. cbn [fst] in H.
    destruct H as (Hout & Hk). apply Z.eqb_neq in Hout. rewrite Hout.
    specialize (IHc _ _ Hk).
    destruct (uncat (cadvance buf out) more) as [num more'].
    destruct (uncat (cadvance buf out) (firstn k more)) as [num1 more1].
    cbn [snd] in IHc.
    destruct (num =? npos), (num1 =? npos); cbn [snd firstn]; now rewrite IHc.
  - intros buf fmt [|a more] H; [contradiction|].
    cbn [unformat_fails_at] in H. cbn [firstn unformat].
    destruct H as (Hpos & H). apply Z.eqb_neq in Hpos. rewrite Hpos.
    destruct (read (cadvance buf (find fmt placeholder)) a) as [num a'].
    cbn [fst] in H. destruct H as (Hnum & Hk).
    apply Z.eqb_neq in Hnum. rewrite Hnum.
    specialize (IHf _ _ _ Hk).
    destruct (unformat _ _ more) as [n1 more1].
    destruct (unformat _ _ (firstn k more)) as [n2 more2].
    cbn [snd] in IHf.
    destruct (n1 =? npos), (n2 =? npos); cbn [snd firstn]; now rewrite IHf.
Qed.

(** The first variable holds 17 after the second read failed. *)
Lemma parsed_values_are_kept_witness :
  firstn 1 (snd (uncat (cs "17x") [int_ref 0; int_ref 8; int_ref 9]))
  = snd (uncat (cs "17x") (firstn 1 [int_ref 0; int_ref 8; int_ref 9])) /\
  snd (uncat (cs "17x") (firstn 1 [int_ref 0; int_ref 8; int_ref 9]))
  = [int_ref 17].
Proof.
  split.
  - apply (proj1 (parsed_values_are_kept 1) (cs "17x")
             [int_ref 0; int_ref 8; int_ref 9]).
    vm_compute. split; [discriminate | reflexivity].
  - vm_compute. reflexivity.
Defined.

(** ** Resizing forms: composition and edge cases *)

Lemma cat_text_app (xs ys : list arg) :
  cat_text (xs ++ ys) = cat_text xs ++ cat_text ys.
Proof.
  unfold cat_text. now rewrite map_app, concat_app.
Qed.

(** X16. Appending twice is appending once: [catrs] in append mode with the
    arguments [xs] and then with the arguments [ys] leaves the container
    that one call with all the arguments leaves, when its size is a
    [size_t]. *)
Theorem catrs_append_composes (cont : container) (xs ys : list arg)
    (fuel : nat) :
  Forall sizing_contract xs -> Forall sizing_contract ys ->
  (2 <= fuel)%nat ->
  clen cont + clen (cat_text xs) + clen (cat_text ys) <= size_max ->
  exists c1 r1 n1 c2 r2 n2 r n,
    catrs_append fuel cont xs = Some (c1, r1, n1) /\
    catrs_append fuel c1 ys = Some (c2, r2, n2) /\
    catrs_append fuel cont (xs ++ ys) = Some (c2, r, n) /\
    r = r1 ++ r2 /\ c2 = cont ++ r.
Proof.
  intros Cx Cy Hfuel Hmax.
  assert (Cxy : Forall sizing_contract (xs ++ ys))
    by (apply Forall_app; now split).
  assert (H0 : 0 <= clen (cat_text xs) /\ 0 <= clen (cat_text ys) /\
               0 <= clen cont) by (unfold clen; lia).
  assert (Hcut : forall (c t : list ascii), csub (c ++ t) (clen c) = t).
  { intros c t. unfold csub, clen.
    now rewrite Nat2Z.id, skipn_app, skipn_all, Nat.sub_diag. }
  assert (Run : forall (c : container) (args : list arg),
             Forall sizing_contract args ->
             clen c + clen (cat_text args) <= size_max ->
             catrs_append fuel c args =
             Some (c ++ cat_text args, cat_text args,
                   if 0 <? clen (cat_text args) then 2%nat else 1%nat)).
  { intros c args Cargs Hm.
    pose proof (cat_renders args Cargs) as R.
    assert (0 <= clen c) by (unfold clen; lia).
    rewrite (cat_size_total args Cargs) in R by lia.
    unfold catrs_append.
    rewrite (retry_append_two_passes _ _ R c fuel Hfuel Hm).
    cbn [appended]. now rewrite Hcut. }
  exists (cont ++ cat_text xs), (cat_text xs),
    (if 0 <? clen (cat_text xs) then 2%nat else 1%nat),
    (cont ++ cat_text xs ++ cat_text ys), (cat_text ys),
    (if 0 <? clen (cat_text ys) then 2%nat else 1%nat),
    (cat_text xs ++ cat_text ys),
    (if 0 <? clen (cat_text (xs ++ ys)) then 2%nat else 1%nat).
  split; [apply Run; [exact Cx | lia]|].
  split.
  - rewrite Run; [now rewrite <- app_assoc | exact Cy |].
    unfold clen in *. rewrite length_app, Nat2Z.inj_add. lia.
  - split; [|split; reflexivity].
    rewrite Run; [now rewrite cat_text_app | exact Cxy |].
    rewrite cat_text_app. unfold clen in *.
    rewrite length_app, Nat2Z.inj_add. lia.
Qed.

(** Two arguments appended to "k=", then a third. *)
Lemma catrs_append_composes_witness :
  exists c1 r1 n1 c2 r2 n2 r n,
    catrs_append 2 (cs "k=") [int_arg 1; str_arg "b"] = Some (c1, r1, n1) /\
    catrs_append 2 c1 [int_arg 22] = Some (c2, r2, n2) /\
    catrs_append 2 (cs "k=") ([int_arg 1; str_arg "b"] ++ [int_arg 22])
      = Some (c2, r, n) /\
    r = r1 ++ r2 /\ c2 = cs "k=" ++ r.
Proof.
  apply (catrs_append_composes (cs "k=") [int_arg 1; str_arg "b"]
           [int_arg 22] 2).
  - apply Forall_cons; [apply int_arg_contract|].
    apply Forall_cons; [apply str_arg_contract|]. apply Forall_nil.
  - apply Forall_cons; [apply int_arg_contract|]. apply Forall_nil.
  - lia.
  - vm_compute. discriminate.
Defined.

Lemma retry_overwrite_zero (engine : substr -> M Z) (cont : container)
    (fuel : nat) :
  fst (engine (to_substr cont) (storage cont)) = 0 ->
  retry_overwrite engine (S fuel) cont = Some ([], 1%nat).
Proof.
  intros H0. cbn [retry_overwrite]. unfold on_storage.
  destruct (engine (to_substr cont) (storage cont)) as [r m'].
  cbn [fst] in H0. subst r. cbn [to_substr len].
  destruct (Z.gtb_spec 0 (clen cont)); [unfold clen in *; lia | reflexivity].
Qed.

(** X17. With no argument to write, [catrs] empties the container, and
    [formatrs] with an empty template does, in one pass, where [catseprs]
    returns without a pass and leaves the container as it was; and each of
    [catrs], [catseprs] and [formatrs], run again on the container it has
    just filled, leaves it as it is after one pass. *)
Theorem overwrite_edge_cases (cont : container) (sep a : arg)
    (fmt : csubstr) (args : list arg) (fuel : nat) :
  sizing_contract sep -> sizing_contract a -> Forall sizing_contract args ->
  (2 <= fuel)%nat ->
  (catrs fuel cont [] = Some ([], 1%nat) /\
   formatrs fuel cont [] [] = Some ([], 1%nat) /\
   catseprs fuel cont sep [] = Some (cont, 0%nat)) /\
  (clen (cat_text args) <= size_max ->
   catrs fuel (cat_text args) args = Some (cat_text args, 1%nat)) /\
  (clen (catsep_text sep a args) <= size_max ->
   catseprs fuel (catsep_text sep a args) sep (a :: args)
   = Some (catsep_text sep a args, 1%nat)) /\
  (clen (format_text fmt args) <= size_max ->
   formatrs fuel (format_text fmt args) fmt args
   = Some (format_text fmt args, 1%nat)).
Proof.
  intros Cs Ca Cargs Hfuel.
  assert (Hirr : forall t : list ascii, (clen t <? clen t) = false)
    by (intros t; apply Z.ltb_irrefl).
  split; [|split; [|split]].
  - destruct fuel as [|fuel]; [lia|].
    split; [now apply retry_overwrite_zero|].
    split; [now apply retry_overwrite_zero | reflexivity].
  - intros Hmax. pose proof (cat_renders args Cargs) as R.
    rewrite (cat_size_total args Cargs Hmax) in R.
    unfold catrs. rewrite (retry_overwrite_two_passes _ _ R _ fuel Hfuel).
    now rewrite Hirr.
  - intros Hmax. pose proof (catsep_renders sep a args Cs Ca Cargs) as R.
    rewrite (catsep_size_total sep a args Cs Ca Cargs Hmax) in R.
    cbn [catseprs]. rewrite (retry_overwrite_two_passes _ _ R _ fuel Hfuel).
    now rewrite Hirr.
  - intros Hmax. pose proof (format_renders args Cargs fmt) as R.
    rewrite (format_size_total args Cargs fmt Hmax) in R.
    unfold formatrs. rewrite (retry_overwrite_two_passes _ _ R _ fuel Hfuel).
    now rewrite Hirr.
Qed.

(** A container that holds "old", and one that holds the output. *)
Lemma overwrite_edge_cases_witness :
  (catrs 2 (cs "old") [] = Some ([], 1%nat) /\
   formatrs 2 (cs "old") [] [] = Some ([], 1%nat) /\
   catseprs 2 (cs "old") (str_arg ",") [] = Some (cs "old", 0%nat)) /\
  catrs 2 (cat_text [int_arg 1; str_arg "b"]) [int_arg 1; str_arg "b"]
  = Some (cat_text [int_arg 1; str_arg "b"], 1%nat).
Proof.
  pose proof (overwrite_edge_cases (cs "old") (str_arg ",") (int_arg 0)
                [] [int_arg 1; str_arg "b"] 2
                (str_arg_contract ",") (int_arg_contract 0)
                (Forall_cons _ (int_arg_contract 1)
                   (Forall_cons _ (str_arg_contract "b") (Forall_nil _)))
                (le_n 2)) as (H1 & H2 & _).
  split; [exact H1|]. apply H2. vm_compute. discriminate.
Defined.
